(** * Verification of the iovec [Builder] (package [iovec])

    The Go package assembles a bounded table of [syscall.Iovec] descriptors
    for one vectored I/O call.  Its behaviour depends on Go slice aliasing
    (a slice is a pointer into a backing array, a length and a capacity) and
    on the built-in [append], so the embedding is over an explicit byte heap:

    - [Mem]    : blocks of bytes, pointers, slices, the built-in operations
                 [&s[i]], [s[:high:max]] and [append(s, t...)];
    - [Iovec]  : the [Builder] with [Add], [addByAppend] and [Build] as
                 computations of a state-and-panic monad over heap and builder;
    - the invariant of the builders reachable from the zero-value builder;
    - the properties of the specification. *)

From Stdlib Require Import ZArith Lia.
From Stdlib Require Import Init.Byte.
From stdpp Require Import base decidable option numbers list.

Set Default Proof Using "Type".
Open Scope nat_scope.

(** ** Outcomes: a Go computation returns or panics *)

Inductive panic : Type :=
  | IndexOutOfRange (i : Z) (n : nat)   (* runtime error: index out of range [i] with length n *)
  | SliceBoundsOutOfRange               (* runtime error: slice bounds out of range *)
  | InvalidMemory.                      (* a slice that does not lie inside its backing array *)

Inductive outcome (A : Type) : Type :=
  | Ok (a : A)
  | Panic (p : panic).
Arguments Ok {A} a.
Arguments Panic {A} p.

(** ** The byte heap and Go slices *)

Module Mem.

(** A heap is a sequence of allocated backing arrays; the index of a block
    is its identity, a fresh allocation takes the next index. *)
Abbreviation heap := (list (list byte)).

(** [*byte]: nil, or the address of a byte of some block. *)
Inductive ptr : Type :=
  | Null
  | Addr (blk off : nat).

Definition ptr_add (p : ptr) (k : nat) : ptr :=
  match p with
  | Null => Null
  | Addr b o => Addr b (o + k)
  end.

(** [[]byte]: the slice header. The nil slice has no array and no room. *)
Record slice : Type := Slice { data : ptr; len : nat; cap : nat }.

Definition nil_slice : slice := {| data := Null; len := 0; cap := 0 |}.

(** [n] bytes starting at [p] lie inside an allocated block. *)
Definition in_bounds (h : heap) (p : ptr) (n : nat) : Prop :=
  match p with
  | Null => n = 0
  | Addr b o => ∃ bytes, h !! b = Some bytes ∧ o + n ≤ length bytes
  end.

Definition in_boundsb (h : heap) (p : ptr) (n : nat) : bool :=
  match p with
  | Null => bool_decide (n = 0)
  | Addr b o =>
      match h !! b with
      | Some bytes => bool_decide (o + n ≤ length bytes)
      | None => false
      end
  end.

(** The bytes a range shows, read without a bounds check. *)
Definition peek (h : heap) (p : ptr) (n : nat) : list byte :=
  match p with
  | Null => []
  | Addr b o => take n (drop o (default [] (h !! b)))
  end.

Definition load (h : heap) (p : ptr) (n : nat) : option (list byte) :=
  if in_boundsb h p n then Some (peek h p n) else None.

(** Overwrite [length bs] bytes at [p]. *)
Definition store (h : heap) (p : ptr) (bs : list byte) : option heap :=
  match p with
  | Null => match bs with [] => Some h | _ :: _ => None end
  | Addr b o =>
      match h !! b with
      | Some bytes =>
          if bool_decide (o + length bs ≤ length bytes)
          then Some (<[b := take o bytes ++ bs ++ drop (o + length bs) bytes]> h)
          else None
      | None => None
      end
  end.

(** A slice header a Go program can hold: [len ≤ cap], and the whole
    capacity lies inside the backing array. *)
Definition slice_ok (h : heap) (s : slice) : Prop :=
  len s ≤ cap s ∧ in_bounds h (data s) (cap s).

Definition slice_bytes (h : heap) (s : slice) : list byte :=
  peek h (data s) (len s).

(** [&s[i]] *)
Definition index_addr (s : slice) (i : nat) : outcome ptr :=
  if bool_decide (i < len s) then Ok (ptr_add (data s) i)
  else Panic (IndexOutOfRange (Z.of_nat i) (len s)).

(** [s[:high:max]] *)
Definition slice3 (s : slice) (high max : nat) : outcome slice :=
  if bool_decide (high ≤ max ∧ max ≤ cap s)
  then Ok {| data := data s; len := high; cap := max |}
  else Panic SliceBoundsOutOfRange.

(** [h] still holds every block of [h0], unchanged. *)
Definition extends (h0 h : heap) : Prop :=
  ∀ b bytes, h0 !! b = Some bytes → h !! b = Some bytes.

(** [s] lies in a block allocated after the first [n0] blocks. *)
Definition owned (n0 : nat) (s : slice) : Prop :=
  ∃ b o, data s = Addr b o ∧ n0 ≤ b.

Section Append.
(** The capacity of the array [append] allocates is the runtime's choice:
    the language only promises that it is large enough.  [spare c n] is
    the room the growth policy grants beyond the [n] bytes needed when a
    slice of capacity [c] is outgrown. *)
Variable spare : nat → nat → nat.

(** [append(s, t...)] on byte slices: the bytes of [t] are written behind
    the [len s] bytes of [s] when the capacity of [s] has room for them,
    and into a fresh array otherwise. *)
Definition append (h : heap) (s t : slice) : outcome (heap * slice) :=
  match load h (data t) (len t) with
  | None => Panic InvalidMemory
  | Some new =>
      let n := len s + len t in
      if bool_decide (n ≤ cap s) then
        match store h (ptr_add (data s) (len s)) new with
        | Some h' => Ok (h', {| data := data s; len := n; cap := cap s |})
        | None => Panic InvalidMemory
        end
      else
        match load h (data s) (len s) with
        | None => Panic InvalidMemory
        | Some old =>
            let room := spare (cap s) n in
            Ok (h ++ [old ++ new ++ replicate room x00],
                {| data := Addr (length h) 0; len := n; cap := n + room |})
        end
  end.
End Append.

End Mem.

(** ** The builder *)

Module Iovec.
Import Mem.

(** [syscall.Iovec]. [Len] is [uint64(len(buf))]; a Go length is a
    non-negative [int], so the conversion keeps its value and the field is
    the same natural number. *)
Record Iovec : Type := MkIovec { Base : ptr; Len : nat }.

(** [Builder]. The table [iovec] is kept by its contents, in order: its
    backing array ([storage], then an array of its own once it holds more
    than eight entries) is written by the builder alone, and the nil table
    and [storage[:0]] are the same empty table. *)
Record Builder : Type := MkBuilder { iovec : list Iovec; overflow : slice }.

(** [var builder Builder] *)
Definition zero_Builder : Builder := {| iovec := []; overflow := nil_slice |}.

(** The world a method runs in: the byte heap and the receiver. *)
Definition world : Type := heap * Builder.

Definition M (A : Type) : Type := world → outcome (A * world).

Definition ret {A} (a : A) : M A := λ σ, Ok (a, σ).

Definition bind {A B} (m : M A) (k : A → M B) : M B :=
  λ σ, match m σ with
       | Ok (a, σ') => k a σ'
       | Panic p => Panic p
       end.

Definition lift {A} (o : outcome A) : M A :=
  λ σ, match o with
       | Ok a => Ok (a, σ)
       | Panic p => Panic p
       end.

Definition get_iovec : M (list Iovec) := λ '(h, w), Ok (iovec w, (h, w)).
Definition get_overflow : M slice := λ '(h, w), Ok (overflow w, (h, w)).
Definition set_iovec (t : list Iovec) : M unit :=
  λ '(h, w), Ok (tt, (h, {| iovec := t; overflow := overflow w |})).
Definition set_overflow (s : slice) : M unit :=
  λ '(h, w), Ok (tt, (h, {| iovec := iovec w; overflow := s |})).

Declare Scope go_scope.
Delimit Scope go_scope with go.
Notation "x <- m ;; k" := (bind m (λ x, k))
  (at level 100, m at next level, right associativity) : go_scope.
Notation "m ;; k" := (bind m (λ _, k))
  (at level 100, right associativity) : go_scope.
Local Open Scope go_scope.

(** [if w.iovec == nil { w.iovec = w.storage[:0] }]: the table that was
    never written moves to the array inside the builder; it stays empty. *)
Definition use_storage : M unit :=
  t <- get_iovec ;;
  match t with
  | [] => set_iovec []
  | _ :: _ => ret tt
  end.

(** [t[i] = v] on the table. *)
Definition table_set (t : list Iovec) (i : Z) (v : Iovec) : outcome (list Iovec) :=
  if bool_decide (0 ≤ i < Z.of_nat (length t))%Z
  then Ok (<[Z.to_nat i := v]> t)
  else Panic (IndexOutOfRange i (length t)).

Section Builder.
(** [MaxIovs = linux.UIO_MAXIOV], a package variable of type [int] whose
    initialiser is declared in another package. *)
Variable MaxIovs : Z.
Variable spare : nat → nat → nat.

(** [w.overflow = append(w.overflow, buf...)] *)
Definition grow_overflow (buf : slice) : M unit :=
  λ '(h, w),
    match append spare h (overflow w) buf with
    | Ok (h', s) => Ok (tt, (h', {| iovec := iovec w; overflow := s |}))
    | Panic p => Panic p
    end.

(** [addByAppend]: grow the overflow buffer by [buf], then rewrite the last
    entry of the table from the overflow buffer as it is now. *)
Definition addByAppend (buf : slice) : M unit :=
  grow_overflow buf ;;
  ov <- get_overflow ;;
  base <- lift (index_addr ov 0) ;;
  t <- get_iovec ;;
  t' <- lift (table_set t (Z.of_nat (length t) - 1)
               {| Base := base; Len := len ov |}) ;;
  set_iovec t'.

(** [Add]: skip a zero-length [buf]; in a full table merge [buf] into the
    overflow buffer; otherwise append its descriptor, and keep [buf], its
    capacity cut to its length, as the overflow buffer when the table has
    become full. *)
Definition Add (buf : slice) : M unit :=
  if bool_decide (len buf = 0) then ret tt
  else
    use_storage ;;
    t <- get_iovec ;;
    if bool_decide (MaxIovs ≤ Z.of_nat (length t))%Z then addByAppend buf
    else
      base <- lift (index_addr buf 0) ;;
      set_iovec (t ++ [{| Base := base; Len := len buf |}]) ;;
      t <- get_iovec ;;
      if bool_decide (Z.of_nat (length t) = MaxIovs) then
        let n := len buf in
        s <- lift (slice3 buf n n) ;;
        set_overflow s
      else ret tt.

(** [Build]: return [w.iovec]. *)
Definition Build : M (list Iovec) := get_iovec.

(** A caller's run of [Add] calls, in order. *)
Fixpoint adds (bufs : list slice) : M unit :=
  match bufs with
  | [] => ret tt
  | buf :: rest => Add buf ;; adds rest
  end.
End Builder.

(** What a consumer reading the table in order sees (the bytes a
    vectored write would send): the byte range of each descriptor, and
    their concatenation.  [None] when a descriptor points outside the
    allocated memory. *)
Definition range (h : heap) (v : Iovec) : option (list byte) :=
  load h (Base v) (Len v).

Fixpoint ranges (h : heap) (t : list Iovec) : option (list (list byte)) :=
  match t with
  | [] => Some []
  | v :: t' =>
      match range h v, ranges h t' with
      | Some bs, Some rest => Some (bs :: rest)
      | _, _ => None
      end
  end.

Definition gather (h : heap) (t : list Iovec) : option (list byte) :=
  @concat byte <$> ranges h t.

(** The caller writes to memory of its own: the blocks the builder
    allocated (those behind the caller's heap [h0]) stay as they are. *)
Definition caller_mutation (h0 h h' : heap) : Prop :=
  ∀ b, length h0 ≤ b → h' !! b = h !! b.

(** The caller overwrites [buf[i : i+len(bs)]], within the capacity. *)
Definition overwrite (h : heap) (buf : slice) (i : nat) (bs : list byte) : option heap :=
  if bool_decide (i + length bs ≤ cap buf)
  then store h (ptr_add (data buf) i) bs
  else None.

(** The descriptor of a caller buffer: its first byte and its length. *)
Definition borrowed (buf : slice) : Iovec :=
  {| Base := data buf; Len := len buf |}.

(** The buffers that [Add] does not skip. *)
Definition nonempties (bufs : list slice) : list slice :=
  filter (λ buf, len buf ≠ 0) bufs.

(** The seed of the overflow buffer: [buf[:n:n]] with [n = len(buf)]. *)
Definition seed (buf : slice) : slice :=
  {| data := data buf; len := len buf; cap := len buf |}.

(** The worlds reached from the zero-value builder over the caller's heap
    [h0] by adding the non-empty buffers [ne], in this order.

    - Direct mode: fewer than [MaxIovs] buffers; one borrowed descriptor
      per buffer, no overflow buffer, the heap untouched.
    - Saturated: the first [MaxIovs - 1] buffers [pre] are borrowed, the
      others [post] are shown by the overflow buffer, to which the last
      descriptor points.  The overflow buffer is either the seed (one
      buffer in [post], still the caller's memory, capacity cut to the
      length) or lies in a block the builder allocated. *)
Inductive reach (MaxIovs : Z) (h0 : heap) (ne : list slice) : world → Prop :=
  | reach_direct :
      (Z.of_nat (length ne) < MaxIovs)%Z →
      reach MaxIovs h0 ne
        (h0, {| iovec := map borrowed ne; overflow := nil_slice |})
  | reach_saturated h ov pre post :
      ne = pre ++ post →
      (Z.of_nat (length pre) + 1 = MaxIovs)%Z →
      extends h0 h →
      slice_ok h ov →
      0 < len ov →
      slice_bytes h ov = concat (map (slice_bytes h0) post) →
      ((∃ buf, post = [buf] ∧ h = h0 ∧ ov = seed buf)
       ∨ (2 ≤ length post ∧ owned (length h0) ov)) →
      reach MaxIovs h0 ne
        (h, {| iovec := map borrowed pre ++ [{| Base := data ov; Len := len ov |}];
               overflow := ov |}).

End Iovec.

(** ** Concrete callers *)

Module Scenario.
Import Mem Iovec.

(** Three caller buffers, each an array of its own. *)
Definition mem : heap :=
  [[x01; x02]; [x03; x04; x05]; [x06; x07; x08; x09]].

Definition buf_a : slice := {| data := Addr 0 0; len := 2; cap := 2 |}.
Definition buf_b : slice := {| data := Addr 1 0; len := 3; cap := 3 |}.
Definition buf_c : slice := {| data := Addr 2 0; len := 4; cap := 4 |}.

(** One byte out of the third array: [buf_c[1:2]]. *)
Definition buf_d : slice := {| data := Addr 2 1; len := 1; cap := 3 |}.

(** [[]byte{}]: empty, but with an array behind it. *)
Definition buf_e : slice := {| data := Addr 0 0; len := 0; cap := 2 |}.

(** Two growth policies: as much room again as is needed (amortised
    doubling), and none at all. *)
Definition doubling (c n : nat) : nat := n.
Definition tight (c n : nat) : nat := 0.

End Scenario.

(** ** The standard clock (package [tcpip]) *)

Module Clock.

(** [int64]: the value of an integer after a 64-bit operation. *)
Definition wrap64 (z : Z) : Z := ((z + 2 ^ 63) mod 2 ^ 64 - 2 ^ 63)%Z.

Definition is_int64 (z : Z) : Prop := (- 2 ^ 63 ≤ z < 2 ^ 63)%Z.
Definition is_int32 (z : Z) : Prop := (- 2 ^ 31 ≤ z < 2 ^ 31)%Z.

(** What the runtime's [time.now] returns: [sec int64, nsec int32,
    mono int64].  The function is linked in from the runtime; a reading is
    an input here. *)
Record reading : Type := Reading { sec : Z; nsec : Z; mono : Z }.

(** [NowNanoseconds]: [sec*1e9 + int64(nsec)], in [int64] arithmetic. *)
Definition NowNanoseconds (r : reading) : Z :=
  wrap64 (wrap64 (sec r * 1000000000) + nsec r).

(** [NowMonotonic]: the monotonic reading. *)
Definition NowMonotonic (r : reading) : Z := mono r.

End Clock.

(** ** Docker containers (package [dockerutil]) and the benchmark harness *)

From Stdlib Require Import String.
From stdpp Require Import strings gmap.

Module Docker.

(** A Go [error] value: one that came from outside (the Docker client, the
    operating system), or one made by [fmt.Errorf], kept as the format and
    its arguments. *)
Inductive goerr : Type :=
  | External (msg : string)
  | Errorf (format : string) (args : list string).

(** [error]: nil or an error. *)
Definition error : Type := option goerr.

(** A slice by its value, nil or not: [None] is the nil slice. *)
Definition elems {A} (s : option (list A)) : list A := default [] s.

(** [append(s, xs...)]: nil stays nil when nothing is appended. *)
Definition gappend {A} (s : option (list A)) (xs : list A) : option (list A) :=
  match s, xs with
  | None, [] => None
  | _, _ => Some (elems s ++ xs)
  end.

(** [mount.Mount], the fields that are set here. *)
Record Mount : Type :=
  MkMount { Type_ : string; Source : string; Target : string; ReadOnly : bool }.

Record RunOpts : Type := MkRunOpts {
  Image : string;
  Memory : Z;
  CpusetCpus : string;
  Ports : list Z;
  WorkDir : string;
  ReadOnly_ : bool;
  Env : list string;
  User : string;
  Privileged : bool;
  CapAdd : list string;
  CapDrop : list string;
  Mounts : list Mount;
  Links : list string
}.


(** [container.Config], the fields that are set here. *)
Record Config : Type := MkConfig {
  cImage : string;
  cCmd : list string;
  cExposedPorts : gset string;
  cEnv : list string;
  cWorkingDir : string;
  cUser : string;
  cTty : bool;
  cOpenStdin : bool
}.

(** [container.HostConfig], the fields that are set here. *)
Record HostConfig : Type := MkHostConfig {
  hRuntime : string;
  hMounts : option (list Mount);
  hPublishAllPorts : bool;
  hLinks : list string;
  hCapAdd : list string;
  hCapDrop : list string;
  hPrivileged : bool;
  hReadonlyRootfs : bool;
  hMemory : Z;
  hCpusetCpus : string
}.

(** [types.ContainerRemoveOptions] *)
Record RemoveOptions : Type :=
  MkRemoveOptions { RemoveVolumes : bool; RemoveLinks : bool; Force : bool }.

(** The functions registered in [c.cleanups].  The one [Start] registers
    closes [c.streams] as it is when the function runs: the closure holds
    the container, not the streams.  The one [CopyFiles] registers removes
    the directory it made. *)
Inductive cleanup : Type :=
  | close_streams
  | remove_all (dir : string).

(** [Container], without the logger and the client (both outside) and the
    stream buffer.  A stream is known by the number of its connection. *)
Record Container : Type := MkContainer {
  Name : string;
  Runtime : string;
  id : string;
  mounts : option (list Mount);
  links : option (list string);
  cleanups : list cleanup;
  copyErr : error;
  streams : option nat
}.

(** What the code does to the outside, in order: the calls of the Docker
    client with their arguments, the log lines, and the calls of the
    operating system and of [testutil]. *)
Inductive event : Type :=
  | ContainerCreate (conf : Config) (hostconf : HostConfig) (netconf : bool) (name : string)
  | ContainerAttach (cid : string)
  | ContainerStart (cid : string) (checkpoint : string)
  | ContainerWait (cid : string)
  | ContainerLogs (cid : string)
  | WriterClose
  | ContainerKill (cid : string)
  | ContainerRemove (name : string) (opts : RemoveOptions)
  | Logf (format : string) (args : list string)
  | StreamsClose (conn : option nat)
  | RemoveAll (dir : string)
  | TempDir (pattern : string)
  | Chmod (dir : string) (mode : Z)
  | FindFile (name : string)
  | Copy (src dst : string).

(** The outside: what each call answers, given everything that was done so
    far (the call itself is the last event). *)
Record outside : Type := MkOutside {
  create_reply : list event → string + string;
  attach_reply : list event → nat + string;
  start_reply : list event → option string;
  wait_reply : list event → option string;
  logs_reply : list event → (string * option string) + string;
  kill_reply : list event → option string;
  remove_reply : list event → option string;
  tempdir_reply : list event → string + string;
  chmod_reply : list event → option string;
  findfile_reply : list event → string + string;
  copy_reply : list event → option string
}.

(** The state a method runs in: the receiver and the events so far. *)
Definition state : Type := Container * list event.

Definition D (A : Type) : Type := state → A * state.

Definition dret {A} (a : A) : D A := λ σ, (a, σ).

Definition dbind {A B} (m : D A) (k : A → D B) : D B :=
  λ σ, let '(a, σ') := m σ in k a σ'.

Declare Scope docker_scope.
Delimit Scope docker_scope with docker.
Notation "x <- m ;; k" := (dbind m (λ x, k))
  (at level 100, m at next level, right associativity) : docker_scope.
Notation "m ;; k" := (dbind m (λ _, k))
  (at level 100, right associativity) : docker_scope.
Local Open Scope docker_scope.

Definition self : D Container := λ '(c, tr), (c, (c, tr)).
Definition update (f : Container → Container) : D unit := λ '(c, tr), (tt, (f c, tr)).
Definition emit (e : event) : D unit := λ '(c, tr), (tt, (c, tr ++ [e])).
Definition ask {R} (reply : list event → R) : D R := λ '(c, tr), (reply tr, (c, tr)).

Definition set_id (i : string) (c : Container) : Container :=
  {| Name := Name c; Runtime := Runtime c; id := i; mounts := mounts c;
     links := links c; cleanups := cleanups c; copyErr := copyErr c;
     streams := streams c |}.
Definition set_mounts (m : option (list Mount)) (c : Container) : Container :=
  {| Name := Name c; Runtime := Runtime c; id := id c; mounts := m;
     links := links c; cleanups := cleanups c; copyErr := copyErr c;
     streams := streams c |}.
Definition set_cleanups (cs : list cleanup) (c : Container) : Container :=
  {| Name := Name c; Runtime := Runtime c; id := id c; mounts := mounts c;
     links := links c; cleanups := cs; copyErr := copyErr c;
     streams := streams c |}.
Definition set_streams (s : option nat) (c : Container) : Container :=
  {| Name := Name c; Runtime := Runtime c; id := id c; mounts := mounts c;
     links := links c; cleanups := cleanups c; copyErr := copyErr c;
     streams := s |}.

(** The event a registered function gives when it is called on [c]. *)
Definition cleanup_event (c : Container) (f : cleanup) : event :=
  match f with
  | close_streams => StreamsClose (streams c)
  | remove_all dir => RemoveAll dir
  end.

(** The connections a run of events closes, in order. *)
Definition closed_conns (evs : list event) : list (option nat) :=
  omap (λ e, match e with StreamsClose s => Some s | _ => None end) evs.

(** The container [MakeContainer] returns: a name and a runtime, everything
    else the zero value. *)
Definition new_Container (name runtime : string) : Container :=
  {| Name := name; Runtime := runtime; id := EmptyString; mounts := None;
     links := None; cleanups := []; copyErr := None; streams := None |}.

(** [strings.Contains] *)
Definition Contains (s substr : string) : bool :=
  bool_decide (is_Some (String.index 0 substr s)).

Section Container.
(** The outside, and the library functions the code formats and names
    things with: [fmt.Sprintf("%d", _)], [fmt.Sprintf] for messages,
    [testutil.ImageByName], [mount.TypeBind], [path.Join], [path.Base] and
    [net.IP.String]. *)
Variable out : outside.
Variable itoa : Z → string.
Variable sprintf : string → list string → string.
Variable ImageByName : string → string.
Variable TypeBind : string.
Variable path_join : string → string → string.
Variable path_base : string → string.

(** [err.Error()] *)
Definition Error (e : goerr) : string :=
  match e with
  | External msg => msg
  | Errorf format args => sprintf format args
  end.

(** An error of the outside, as an [error]. *)
Definition from_outside (r : option string) : error := External <$> r.

(** [config] *)
Definition config (c : Container) (r : RunOpts) (args : list string) : Config :=
  let ports := foldl (λ ports p, {[ itoa p ]} ∪ ports) (∅ : gset string) (Ports r) in
  let env := Env r ++ [String.append "RUNSC_TEST_NAME=" (Name c)] in
  {| cImage := ImageByName (Image r); cCmd := args; cExposedPorts := ports;
     cEnv := env; cWorkingDir := WorkDir r; cUser := User r;
     cTty := false; cOpenStdin := false |}.

(** [hostConfig]: the mounts of [r] are appended to the mounts the
    container holds, and all of them are passed on. *)
Definition hostConfig (r : RunOpts) : D HostConfig :=
  c <- self ;;
  update (set_mounts (gappend (mounts c) (Mounts r))) ;;
  c <- self ;;
  dret {| hRuntime := Runtime c; hMounts := mounts c; hPublishAllPorts := true;
          hLinks := Links r; hCapAdd := CapAdd r; hCapDrop := CapDrop r;
          hPrivileged := Privileged r; hReadonlyRootfs := ReadOnly_ r;
          hMemory := Memory r; hCpusetCpus := CpusetCpus r |}.

(** [create] *)
Definition create (r : RunOpts) (args : list string) : D error :=
  c <- self ;;
  let conf := config c r args in
  hostconf <- hostConfig r ;;
  emit (ContainerCreate conf hostconf false (Name c)) ;;
  reply <- ask (create_reply out) ;;
  match reply with
  | inr err => dret (Some (External err))
  | inl cid => update (set_id cid) ;; dret None
  end.

(** [Create] *)
Definition Create (r : RunOpts) (args : list string) : D error := create r args.

(** [Start] *)
Definition Start : D error :=
  c <- self ;;
  emit (ContainerAttach (id c)) ;;
  reply <- ask (attach_reply out) ;;
  match reply with
  | inr err =>
      dret (Some (Errorf "failed to connect to container: %v" [err]))
  | inl conn =>
      update (set_streams (Some conn)) ;;
      c <- self ;;
      update (set_cleanups (cleanups c ++ [close_streams])) ;;
      emit (ContainerStart (id c) EmptyString) ;;
      err <- ask (start_reply out) ;;
      dret (from_outside err)
  end.

(** [Spawn] *)
Definition Spawn (r : RunOpts) (args : list string) : D error :=
  err <- create r args ;;
  match err with
  | Some e => dret (Some e)
  | None => Start
  end.




(** [Kill] *)
Definition Kill : D error :=
  c <- self ;;
  emit (ContainerKill (id c)) ;;
  err <- ask (kill_reply out) ;;
  dret (from_outside err).

(** [Remove] *)
Definition Remove : D error :=
  c <- self ;;
  let remove := {| RemoveVolumes := bool_decide (mounts c ≠ None);
                   RemoveLinks := bool_decide (links c ≠ None);
                   Force := true |} in
  emit (ContainerRemove (Name c) remove) ;;
  err <- ask (remove_reply out) ;;
  dret (from_outside err).

(** Calling a registered function. *)
Definition run_cleanup (f : cleanup) : D unit :=
  match f with
  | close_streams => c <- self ;; emit (StreamsClose (streams c))
  | remove_all dir => emit (RemoveAll dir)
  end.

(** [for _, c := range c.cleanups { c() }] *)
Fixpoint run_cleanups (fs : list cleanup) : D unit :=
  match fs with
  | [] => dret tt
  | f :: rest => run_cleanup f ;; run_cleanups rest
  end.

(** [CleanUp] *)
Definition CleanUp : D unit :=
  c <- self ;;
  err <- Kill ;;
  match err with
  | Some e =>
      if negb (Contains (Error e) "is not running")
      then emit (Logf "error killing container %q: %v" [Name c; Error e])
      else dret tt
  | None => dret tt
  end ;;
  err <- Remove ;;
  match err with
  | Some e => emit (Logf "error removing container %q: %v" [Name c; Error e])
  | None => dret tt
  end ;;
  update (set_mounts None) ;;
  c <- self ;;
  run_cleanups (cleanups c) ;;
  update (set_cleanups []).




End Container.

(** An outside where every call goes well; a connection is numbered by the
    calls made before it. *)
Definition all_well : outside :=
  {| create_reply := λ _, inl "c0";
     attach_reply := λ tr, inl (length tr);
     start_reply := λ _, None;
     wait_reply := λ _, None;
     logs_reply := λ _, inl ("served", None);
     kill_reply := λ _, None;
     remove_reply := λ _, None;
     tempdir_reply := λ _, inl "/tmp/d";
     chmod_reply := λ _, None;
     findfile_reply := λ _, inl "/src/f";
     copy_reply := λ _, None |}.

End Docker.

(** ** Facts about the heap *)

Module MemFacts.
Import Mem.

Lemma ptr_add_0 p : ptr_add p 0 = p.
Proof. destruct p as [|b o]; simpl; [done | by rewrite Nat.add_0_r]. Qed.

Lemma in_boundsb_true h p n : in_boundsb h p n = true ↔ in_bounds h p n.
Proof.
  destruct p as [|b o]; simpl.
  - by rewrite bool_decide_eq_true.
  - destruct (h !! b) as [bytes|] eqn:E.
    + rewrite bool_decide_eq_true. split; [by eauto | by intros (? & [= <-] & ?)].
    + split; [done | by intros (? & ? & _)].
Qed.

Lemma load_in_bounds h p n : in_bounds h p n → load h p n = Some (peek h p n).
Proof. intros H%in_boundsb_true. unfold load. by rewrite H. Qed.

Lemma in_bounds_le h p n m : m ≤ n → in_bounds h p n → in_bounds h p m.
Proof.
  destruct p as [|b o]; simpl; [lia|].
  intros ? (bytes & ? & ?). exists bytes. split; [done | lia].
Qed.

Lemma length_peek h p n : in_bounds h p n → length (peek h p n) = n.
Proof.
  destruct p as [|b o]; simpl; [done|].
  intros (bytes & -> & ?). simpl. rewrite length_take, length_drop. lia.
Qed.

Lemma slice_ok_load h s :
  slice_ok h s → load h (data s) (len s) = Some (slice_bytes h s).
Proof. intros [? ?]. apply load_in_bounds. by eapply in_bounds_le. Qed.

Lemma length_slice_bytes h s : slice_ok h s → length (slice_bytes h s) = len s.
Proof. intros [? ?]. apply length_peek. by eapply in_bounds_le. Qed.

Lemma slice_ok_nil h : slice_ok h nil_slice.
Proof. by split. Qed.

Lemma slice_ok_addr h s :
  slice_ok h s → 0 < cap s → ∃ b o, data s = Addr b o.
Proof. intros [_ Hb] ?. destruct (data s); simpl in *; [lia | eauto]. Qed.

Lemma extends_refl h : extends h h.
Proof. by intros ? ?. Qed.

Lemma extends_trans h0 h1 h2 : extends h0 h1 → extends h1 h2 → extends h0 h2.
Proof. intros H1 H2 b bytes ?. by apply H2, H1. Qed.

Lemma extends_alloc h blk : extends h (h ++ [blk]).
Proof. intros b bytes ?. by apply lookup_app_l_Some. Qed.

Lemma extends_insert h0 h b blk :
  extends h0 h → length h0 ≤ b → extends h0 (<[b := blk]> h).
Proof.
  intros He ? b' bytes Hb'. rewrite list_lookup_insert_ne; [by apply He|].
  apply lookup_lt_Some in Hb'. lia.
Qed.

Lemma extends_in_bounds h0 h p n :
  extends h0 h → in_bounds h0 p n → in_bounds h p n.
Proof.
  intros He. destruct p as [|b o]; simpl; [done|].
  intros (bytes & ? & ?). exists bytes. split; [by apply He | done].
Qed.

Lemma extends_peek h0 h p n :
  extends h0 h → in_bounds h0 p n → peek h p n = peek h0 p n.
Proof.
  intros He. destruct p as [|b o]; simpl; [done|].
  intros (bytes & Hb & ?). by rewrite Hb, (He _ _ Hb).
Qed.

Lemma extends_slice_ok h0 h s : extends h0 h → slice_ok h0 s → slice_ok h s.
Proof. intros ? [? ?]. split; [done | by eapply extends_in_bounds]. Qed.

Lemma extends_slice_bytes h0 h s :
  extends h0 h → slice_ok h0 s → slice_bytes h s = slice_bytes h0 s.
Proof.
  intros ? [? ?]. apply extends_peek; [done|]. by eapply in_bounds_le.
Qed.

(** Writing [bs] right behind the first [n] bytes of a range keeps those
    bytes and shows [bs] after them. *)
Lemma peek_behind (bytes bs : list byte) o n :
  o + n + length bs ≤ length bytes →
  take (n + length bs)
    (drop o (take (o + n) bytes ++ bs ++ drop (o + n + length bs) bytes))
  = take n (drop o bytes) ++ bs.
Proof.
  intros ?. rewrite drop_app_le by (rewrite length_take; lia).
  rewrite <- take_drop_commute, app_assoc.
  apply take_app_length'. rewrite length_app, length_take, length_drop. lia.
Qed.

Section Append.
Variable spare : nat → nat → nat.

(** [append] outgrowing the capacity: a fresh block, the old heap kept. *)
Lemma append_fresh h s t :
  slice_ok h s → slice_ok h t → cap s < len s + len t →
  append spare h s t =
    Ok (h ++ [slice_bytes h s ++ slice_bytes h t
                ++ replicate (spare (cap s) (len s + len t)) x00],
        {| data := Addr (length h) 0; len := len s + len t;
           cap := len s + len t + spare (cap s) (len s + len t) |}).
Proof.
  intros Hs Ht ?. unfold append.
  rewrite (slice_ok_load _ _ Ht), (slice_ok_load _ _ Hs).
  by rewrite bool_decide_eq_false_2 by lia.
Qed.

(** [append] within the capacity: the block of [s] is written in place. *)
Lemma append_in_place h s t b o bytes :
  slice_ok h s → slice_ok h t → len s + len t ≤ cap s →
  data s = Addr b o → h !! b = Some bytes →
  append spare h s t =
    Ok (<[b := take (o + len s) bytes ++ slice_bytes h t
                 ++ drop (o + len s + len t) bytes]> h,
        {| data := Addr b o; len := len s + len t; cap := cap s |}).
Proof.
  intros Hs Ht ? Hd Hb. unfold append.
  rewrite (slice_ok_load _ _ Ht), bool_decide_eq_true_2 by done.
  destruct Hs as [_ Hin]. rewrite Hd in *. simpl in *.
  destruct Hin as (bytes' & Hb' & ?). rewrite Hb in Hb'. injection Hb' as <-.
  rewrite Hb, (length_slice_bytes _ _ Ht).
  by rewrite bool_decide_eq_true_2 by lia.
Qed.

(** What [append] of a non-empty [t] does, in both cases: the result
    shows the bytes of [s] followed by those of [t]. *)
Lemma append_spec h s t :
  slice_ok h s → slice_ok h t → 0 < len t →
  ∃ h' s',
    append spare h s t = Ok (h', s')
    ∧ slice_ok h' s'
    ∧ len s' = len s + len t
    ∧ slice_bytes h' s' = slice_bytes h s ++ slice_bytes h t
    ∧ ((cap s < len s + len t ∧ data s' = Addr (length h) 0
        ∧ ∃ blk, h' = h ++ [blk])
       ∨ (len s + len t ≤ cap s
          ∧ ∃ b o blk, data s = Addr b o ∧ data s' = Addr b o
              ∧ cap s' = cap s ∧ b < length h ∧ h' = <[b := blk]> h)).
Proof.
  intros Hs Ht Hlt.
  destruct (decide (len s + len t ≤ cap s)) as [Hfit|Hgrow].
  - destruct (slice_ok_addr _ _ Hs ltac:(lia)) as (b & o & Hd).
    pose proof Hs as [_ Hin]. rewrite Hd in Hin. destruct Hin as (bytes & Hb & Hlen).
    eexists _, _. split; [by eapply append_in_place|].
    pose proof (length_slice_bytes _ _ Ht) as Hlt'.
    split; [|split; [done|split]].
    + split; simpl; [lia|]. eexists. split.
      * apply list_lookup_insert_eq. by eapply lookup_lt_Some.
      * rewrite !length_app, length_take, length_drop. lia.
    + remember (slice_bytes h t) as new eqn:Hnew. unfold slice_bytes. simpl.
      rewrite Hd. simpl.
      rewrite list_lookup_insert_eq by (by eapply lookup_lt_Some).
      rewrite Hb. simpl. rewrite <- Hlt'. apply peek_behind. lia.
    + right. split; [done|]. eexists b, o, _.
      repeat split; try done. by eapply lookup_lt_Some.
  - eexists _, _. split; [apply append_fresh; [done..|lia]|].
    pose proof (length_slice_bytes _ _ Hs). pose proof (length_slice_bytes _ _ Ht).
    split; [|split; [done|split]].
    + split; simpl; [lia|]. eexists. split.
      * by apply list_lookup_middle.
      * rewrite !length_app, length_replicate. lia.
    + remember (slice_bytes h s) as old eqn:Hold.
      remember (slice_bytes h t) as new eqn:Hnew. unfold slice_bytes. simpl.
      rewrite list_lookup_middle by done. simpl.
      rewrite app_assoc. apply take_app_length'. rewrite length_app. lia.
    + left. split; [lia|]. split; [done|]. by eexists.
Qed.
End Append.

Lemma extends_length h0 h : extends h0 h → length h0 ≤ length h.
Proof.
  intros He. destruct (decide (length h0 ≤ length h)) as [|Hn]; [done|].
  destruct (lookup_lt_is_Some_2 h0 (length h)) as [bytes Hb]; [lia|].
  apply He, lookup_lt_Some in Hb. lia.
Qed.

End MemFacts.


(** ** Facts about the builder *)

Module IovecFacts.
Import Mem MemFacts Iovec.

Lemma table_set_last t old v :
  table_set (t ++ [old]) (Z.of_nat (length (t ++ [old])) - 1) v = Ok (t ++ [v]).
Proof.
  unfold table_set. rewrite length_app. simpl.
  rewrite bool_decide_eq_true_2 by lia.
  replace (Z.to_nat (Z.of_nat (length t + 1) - 1)) with (length t + 0) by lia.
  by rewrite insert_app_r.
Qed.

Lemma index_addr_0 s : 0 < len s → index_addr s 0 = Ok (data s).
Proof.
  intros ?. unfold index_addr.
  by rewrite bool_decide_eq_true_2, ptr_add_0 by done.
Qed.

Lemma slice3_seed buf :
  len buf ≤ cap buf → slice3 buf (len buf) (len buf) = Ok (seed buf).
Proof. intros ?. unfold slice3. by rewrite bool_decide_eq_true_2 by lia. Qed.

Lemma nonempties_app l1 l2 : nonempties (l1 ++ l2) = nonempties l1 ++ nonempties l2.
Proof. apply filter_app. Qed.

Section Builder.
Variable MaxIovs : Z.
Variable spare : nat → nat → nat.

Local Abbreviation Add := (Add MaxIovs spare).
Local Abbreviation addByAppend := (addByAppend spare).
Local Abbreviation adds := (adds MaxIovs spare).

(** Moving the empty table to the inline array changes nothing that the
    table shows. *)
Lemma use_storage_id h w : use_storage (h, w) = Ok (tt, (h, w)).
Proof. by destruct w as [[|v t] ov]. Qed.

(** A zero-length buffer is skipped before anything is read or written. *)
Lemma Add_empty buf σ : len buf = 0 → Add buf σ = Ok (tt, σ).
Proof. intros E. unfold Iovec.Add. by rewrite bool_decide_eq_true_2. Qed.

(** Direct mode: the descriptor of [buf] is appended; when this fills the
    table, [buf] with its capacity cut becomes the overflow buffer. *)
Lemma Add_direct buf h w :
  0 < len buf → len buf ≤ cap buf →
  (Z.of_nat (length (iovec w)) < MaxIovs)%Z →
  Add buf (h, w) =
    Ok (tt, (h, {| iovec := iovec w ++ [borrowed buf];
                   overflow :=
                     if bool_decide (Z.of_nat (length (iovec w)) + 1 = MaxIovs)%Z
                     then seed buf else overflow w |})).
Proof.
  intros ? ? ?. unfold Iovec.Add.
  rewrite (bool_decide_eq_false_2 (len buf = 0)) by lia.
  unfold bind at 1. rewrite use_storage_id.
  unfold bind, get_iovec, set_iovec, lift. cbn.
  rewrite (bool_decide_eq_false_2 (MaxIovs ≤ _)%Z) by lia.
  rewrite index_addr_0 by done. simpl.
  rewrite length_app. simpl.
  destruct (decide (Z.of_nat (length (iovec w)) + 1 = MaxIovs)%Z) as [E|E].
  - rewrite !bool_decide_eq_true_2 by lia.
    rewrite slice3_seed by done. done.
  - rewrite !bool_decide_eq_false_2 by lia. by destruct w.
Qed.

(** Merge mode, in terms of what [append] returns. *)
Lemma addByAppend_eq buf h t old ov h' ov' :
  append spare h ov buf = Ok (h', ov') → 0 < len ov' →
  addByAppend buf (h, {| iovec := t ++ [old]; overflow := ov |}) =
    Ok (tt, (h', {| iovec := t ++ [{| Base := data ov'; Len := len ov' |}];
                    overflow := ov' |})).
Proof.
  intros Happ ?.
  unfold Iovec.addByAppend, grow_overflow, bind, get_overflow, get_iovec,
    set_iovec, lift. cbn.
  rewrite Happ. cbn. rewrite index_addr_0 by done.
  cbn. by rewrite table_set_last.
Qed.

Lemma Add_merge buf h w :
  0 < len buf → (MaxIovs ≤ Z.of_nat (length (iovec w)))%Z →
  Add buf (h, w) = addByAppend buf (h, w).
Proof.
  intros ? ?. unfold Iovec.Add.
  rewrite (bool_decide_eq_false_2 (len buf = 0)) by lia.
  unfold bind at 1. rewrite use_storage_id.
  unfold bind, get_iovec. cbn.
  by rewrite (bool_decide_eq_true_2 (MaxIovs ≤ _)%Z) by lia.
Qed.

(** Growing an overflow buffer that is the seed or already the builder's
    own leaves the caller's blocks as they were and yields a buffer of
    the builder's own. *)
Lemma grow_owned h0 h ov buf h' ov' :
  extends h0 h →
  cap ov = len ov ∨ owned (length h0) ov →
  0 < len buf →
  (cap ov < len ov + len buf ∧ data ov' = Addr (length h) 0
   ∧ ∃ blk, h' = h ++ [blk])
  ∨ (len ov + len buf ≤ cap ov
     ∧ ∃ b o blk, data ov = Addr b o ∧ data ov' = Addr b o
         ∧ cap ov' = cap ov ∧ b < length h ∧ h' = <[b := blk]> h) →
  extends h0 h' ∧ owned (length h0) ov'.
Proof.
  intros Hext Hmode Hlen [(_ & Hd & blk & ->) | (Hfit & b & o & blk & Hd & Hd' & _ & _ & ->)].
  - split.
    + eapply extends_trans; [done | apply extends_alloc].
    + exists (length h), 0. split; [done | by apply extends_length].
  - destruct Hmode as [Hseed | (b' & o' & Hd'' & Hb')]; [lia|].
    rewrite Hd in Hd''. injection Hd'' as <- <-.
    split; [by apply extends_insert | by exists b, o].
Qed.

(** Merge mode on a full table whose overflow buffer is the seed or the
    builder's own: the bytes of [buf] are copied behind the overflow buffer,
    the last descriptor is rewritten to show the overflow buffer as it is
    now, and the caller's blocks are as before.  Growing the seed takes a
    fresh block. *)
Lemma merge_step h0 h t old ov buf :
  extends h0 h → slice_ok h ov →
  cap ov = len ov ∨ owned (length h0) ov →
  slice_ok h0 buf → 0 < len buf →
  (MaxIovs ≤ Z.of_nat (length (t ++ [old])))%Z →
  ∃ h' ov',
    Add buf (h, {| iovec := t ++ [old]; overflow := ov |})
      = Ok (tt, (h', {| iovec := t ++ [{| Base := data ov'; Len := len ov' |}];
                        overflow := ov' |}))
    ∧ slice_ok h' ov'
    ∧ len ov' = len ov + len buf
    ∧ slice_bytes h' ov' = slice_bytes h ov ++ slice_bytes h0 buf
    ∧ extends h0 h'
    ∧ owned (length h0) ov'
    ∧ (cap ov = len ov → data ov' = Addr (length h) 0 ∧ ∃ blk, h' = h ++ [blk]).
Proof.
  intros Hext Hov Hmode Hbuf Hlen Hfull.
  destruct (append_spec spare h ov buf)
    as (h' & ov' & Happ & Hok' & Hlen' & Hbytes' & Hcase);
    [done | by eapply extends_slice_ok | done |].
  destruct (grow_owned h0 h ov buf h' ov') as [Hext' Hown]; [done..|].
  exists h', ov'. split.
  { rewrite Add_merge by done. apply addByAppend_eq; [done | lia]. }
  split; [done|]. split; [done|]. split.
  { rewrite Hbytes'. f_equal. by apply extends_slice_bytes. }
  split; [done|]. split; [done|]. intros Hseed.
  destruct Hcase as [(_ & ? & ?) | (? & _)]; [done | lia].
Qed.

(** One [Add] of a non-empty buffer keeps the builder reachable. *)
Lemma Add_reach h0 ne σ buf :
  reach MaxIovs h0 ne σ → slice_ok h0 buf → 0 < len buf →
  ∃ σ', Add buf σ = Ok (tt, σ') ∧ reach MaxIovs h0 (ne ++ [buf]) σ'.
Proof.
  intros Hr Hok Hlen.
  destruct Hr as [Hlt | h ov pre post -> Hpre Hext Hov Hpos Hbytes Hmode].
  - eexists. split.
    + apply Add_direct; [done | by destruct Hok | cbn; by rewrite length_map].
    + cbn. rewrite length_map. case_bool_decide as E.
      * apply (reach_saturated _ _ _ h0 (seed buf) ne [buf]); try done.
        -- apply extends_refl.
        -- destruct Hok as [? ?]. split; simpl; [lia | by eapply in_bounds_le].
        -- simpl. by rewrite app_nil_r.
        -- left. by exists buf.
      * change [borrowed buf] with (map borrowed [buf]).
        rewrite <- map_app. apply reach_direct.
        rewrite length_app. simpl. lia.
  - destruct (merge_step h0 h (map borrowed pre) {| Base := data ov; Len := len ov |} ov buf)
      as (h' & ov' & Hadd & Hok' & Hlen' & Hbytes' & Hext' & Hown & _); try done.
    { destruct Hmode as [(b & _ & _ & ->) | [_ ?]]; [by left | by right]. }
    { rewrite length_app, length_map. simpl. lia. }
    eexists. split; [exact Hadd|].
    rewrite <- app_assoc.
    apply reach_saturated with (post := post ++ [buf]); try done.
    + lia.
    + rewrite Hbytes', Hbytes, map_app, concat_app. simpl. by rewrite app_nil_r.
    + right. split; [|done]. rewrite length_app. simpl.
      destruct Hmode as [(b & -> & _) | [? _]]; simpl; lia.
Qed.

(** A run of [Add] calls on valid caller buffers keeps the builder
    reachable; in particular it does not panic. *)
Lemma adds_reach h0 bufs : ∀ ne σ,
  reach MaxIovs h0 ne σ → Forall (slice_ok h0) bufs →
  ∃ σ', adds bufs σ = Ok (tt, σ') ∧ reach MaxIovs h0 (ne ++ nonempties bufs) σ'.
Proof.
  induction bufs as [|buf bufs IH]; intros ne σ Hr Hall.
  - exists σ. split; [done|]. by rewrite app_nil_r.
  - apply Forall_cons in Hall as [Hbuf Hall]. simpl. unfold bind.
    destruct (decide (len buf = 0)) as [E|E].
    + rewrite Add_empty by done.
      destruct (IH ne σ Hr Hall) as (σ' & Hrun & Hr'). exists σ'. split; [done|].
      unfold nonempties. by rewrite filter_cons_False by (by intros ?).
    + destruct (Add_reach h0 ne σ buf Hr Hbuf ltac:(lia)) as (σ1 & -> & Hr1).
      destruct (IH _ σ1 Hr1 Hall) as (σ' & Hrun & Hr'). exists σ'. split; [done|].
      unfold nonempties. rewrite filter_cons_True by done.
      by rewrite <- (assoc_L (++)) in Hr'.
Qed.

(** The ranges of the table of a reachable builder: one per buffer in
    direct mode; once saturated, the borrowed ones followed by one range
    that shows all the later buffers. *)
Lemma ranges_borrowed h0 h l :
  extends h0 h → Forall (slice_ok h0) l →
  ranges h (map borrowed l) = Some (map (slice_bytes h0) l).
Proof.
  intros Hext. induction 1 as [|buf l Hbuf _ IH]; [done|].
  simpl. rewrite IH. unfold range. simpl.
  rewrite (slice_ok_load h buf) by (by eapply extends_slice_ok).
  by rewrite (extends_slice_bytes h0 h).
Qed.

Lemma ranges_snoc h t v rs bs :
  ranges h t = Some rs → range h v = Some bs →
  ranges h (t ++ [v]) = Some (rs ++ [bs]).
Proof.
  revert rs. induction t as [|u t IH]; intros rs; simpl.
  - intros [= <-] ->. done.
  - destruct (range h u) as [b|]; [|done].
    destruct (ranges h t) as [r|]; [|done].
    intros [= <-] Hv. by rewrite (IH r eq_refl Hv).
Qed.

Lemma reach_ranges h0 ne h w :
  reach MaxIovs h0 ne (h, w) → Forall (slice_ok h0) ne →
  ((Z.of_nat (length ne) < MaxIovs)%Z
   ∧ h = h0 ∧ w = {| iovec := map borrowed ne; overflow := nil_slice |}
   ∧ ranges h (iovec w) = Some (map (slice_bytes h0) ne))
  ∨ (∃ pre post,
       ne = pre ++ post ∧ (Z.of_nat (length pre) + 1 = MaxIovs)%Z
       ∧ post ≠ [] ∧ extends h0 h
       ∧ iovec w = map borrowed pre
                     ++ [{| Base := data (overflow w); Len := len (overflow w) |}]
       ∧ 0 < len (overflow w)
       ∧ range h {| Base := data (overflow w); Len := len (overflow w) |}
           = Some (concat (map (slice_bytes h0) post))
       ∧ ranges h (iovec w)
           = Some (map (slice_bytes h0) pre ++ [concat (map (slice_bytes h0) post)])
       ∧ ((∃ buf, post = [buf] ∧ h = h0 ∧ overflow w = seed buf)
          ∨ (2 ≤ length post ∧ owned (length h0) (overflow w)))).
Proof.
  intros Hr Hall. remember (h, w) as σ eqn:Hσ.
  destruct Hr as [Hlt | h' ov pre post Hne Hpre Hext Hov Hpos Hbytes Hmode];
    injection Hσ as <- <-.
  - left. repeat split; try done. simpl. apply ranges_borrowed; [apply extends_refl | done].
  - right. exists pre, post. rewrite Hne in Hall. apply Forall_app in Hall as [Hpre' _].
    assert (range h' {| Base := data ov; Len := len ov |}
            = Some (concat (map (slice_bytes h0) post))) as Hrange.
    { unfold range. simpl. rewrite (slice_ok_load h' ov) by done. by rewrite Hbytes. }
    repeat split; try done.
    + destruct Hmode as [(b & -> & _) | [? _]]; [done|]. intros ->. simpl in *. lia.
    + simpl. apply ranges_snoc; [by apply ranges_borrowed | done].
Qed.

Lemma reach_zero h0 : (1 ≤ MaxIovs)%Z → reach MaxIovs h0 [] (h0, zero_Builder).
Proof. intros ?. apply (reach_direct MaxIovs h0 []). simpl. lia. Qed.

(** Every run of [Add] calls from the zero-value builder returns, in a
    reachable world. *)
Lemma run_reach h0 bufs :
  (1 ≤ MaxIovs)%Z → Forall (slice_ok h0) bufs →
  ∃ h w, adds bufs (h0, zero_Builder) = Ok (tt, (h, w))
         ∧ reach MaxIovs h0 (nonempties bufs) (h, w).
Proof.
  intros HM Hall.
  destruct (adds_reach h0 bufs [] _ (reach_zero h0 HM) Hall) as ([h w] & Hrun & Hr).
  by exists h, w.
Qed.

Lemma Forall_nonempties (P : slice → Prop) bufs :
  Forall P bufs → Forall P (nonempties bufs).
Proof.
  rewrite !Forall_forall. intros HP buf [_ ?]%list_elem_of_filter. by apply HP.
Qed.

(** [adds] distributes over the concatenation of the call sequences. *)
Lemma adds_app l1 l2 σ :
  adds (l1 ++ l2) σ = (adds l1 ;; adds l2)%go σ.
Proof.
  revert σ. induction l1 as [|buf l1 IH]; intros σ; simpl; [done|].
  unfold bind in *. destruct (Add buf σ) as [[[] σ1]|]; [apply IH | done].
Qed.

(** Zero-length buffers only: nothing happens. *)
Lemma adds_empty bufs σ :
  Forall (λ buf, len buf = 0) bufs → adds bufs σ = Ok (tt, σ).
Proof.
  induction 1 as [|buf bufs Hbuf _ IH]; [done|].
  simpl. unfold bind. by rewrite Add_empty.
Qed.

(** Direct mode all along: the table grows by the borrowed descriptors. *)
Lemma adds_direct bufs : ∀ h w,
  Forall (λ buf, 0 < len buf ≤ cap buf) bufs →
  (Z.of_nat (length (iovec w) + length bufs) ≤ MaxIovs)%Z →
  ∃ ov, adds bufs (h, w) =
          Ok (tt, (h, {| iovec := iovec w ++ map borrowed bufs; overflow := ov |})).
Proof.
  induction bufs as [|buf bufs IH]; intros h w Hall Hlen.
  - exists (overflow w). simpl. rewrite app_nil_r. by destruct w.
  - apply Forall_cons in Hall as [[? ?] Hall]. simpl in *. unfold bind.
    rewrite Add_direct by (done || lia).
    edestruct IH as [ov ->]; [done | |].
    + cbn. rewrite length_app. simpl. lia.
    + exists ov. cbn. by rewrite <- (assoc_L (++)).
Qed.

(** A descriptor shows what the block of its base holds. *)
Lemma range_agree h h' v b o :
  Base v = Addr b o → h' !! b = h !! b → range h' v = range h v.
Proof.
  intros Hv Hb. unfold range, load. rewrite Hv. simpl. by rewrite Hb.
Qed.

(** Overwriting a caller buffer is a mutation of the caller's memory. *)
Lemma overwrite_caller_mutation h0 h buf i bs h' :
  slice_ok h0 buf → overwrite h buf i bs = Some h' → caller_mutation h0 h h'.
Proof.
  intros [_ Hin] Hw b' Hb'. unfold overwrite in Hw.
  case_bool_decide; [|done].
  destruct (data buf) as [|b o]; simpl in *.
  - destruct bs; simpl in Hw; [by injection Hw as <- | done].
  - destruct Hin as (bytes & Hb%lookup_lt_Some & _).
    destruct (h !! b); [|done]. case_bool_decide; [|done].
    injection Hw as <-. apply list_lookup_insert_ne. lia.
Qed.

Lemma run_reach_eq h0 bufs h w :
  (1 ≤ MaxIovs)%Z → Forall (slice_ok h0) bufs →
  adds bufs (h0, zero_Builder) = Ok (tt, (h, w)) →
  reach MaxIovs h0 (nonempties bufs) (h, w).
Proof.
  intros HM Hall Hrun.
  destruct (run_reach h0 bufs HM Hall) as (h' & w' & Hrun' & Hr).
  rewrite Hrun in Hrun'. by injection Hrun' as -> ->.
Qed.

(** A reachable builder with a full table: what merge mode relies on. *)
Lemma reach_full h0 ne h w :
  reach MaxIovs h0 ne (h, w) →
  (MaxIovs ≤ Z.of_nat (length (iovec w)))%Z →
  ∃ t old,
    iovec w = t ++ [old] ∧ extends h0 h ∧ slice_ok h (overflow w)
    ∧ (cap (overflow w) = len (overflow w) ∨ owned (length h0) (overflow w)).
Proof.
  intros Hr Hfull. remember (h, w) as σ eqn:Hσ.
  destruct Hr as [Hlt | h' ov pre post Hne Hpre Hext Hov Hpos Hbytes Hmode];
    injection Hσ as <- <-.
  - simpl in Hfull. rewrite length_map in Hfull. lia.
  - eexists _, _. split; [done|]. split; [done|]. split; [done|]. simpl.
    destruct Hmode as [(b & _ & _ & ->) | [_ ?]]; [by left | by right].
Qed.

(** The table of a reachable builder holds one descriptor per non-empty
    buffer, up to [MaxIovs] of them. *)
Lemma reach_length h0 ne h w :
  reach MaxIovs h0 ne (h, w) → Forall (slice_ok h0) ne →
  Z.of_nat (length (iovec w)) = Z.min (Z.of_nat (length ne)) MaxIovs.
Proof.
  intros Hr Hall.
  destruct (reach_ranges _ _ _ _ Hr Hall)
    as [(Hlt & _ & -> & _) | (pre & post & -> & Hpre & Hpost & _ & -> & _)].
  - simpl. rewrite length_map. lia.
  - rewrite !length_app, length_map. simpl.
    destruct post; [done|]. simpl. lia.
Qed.
End Builder.
End IovecFacts.

(** * The properties of the specification *)

Import Mem MemFacts Iovec IovecFacts.
Local Open Scope go_scope.

Ltac slice_ok_tac :=
  split; simpl; [lia | first [reflexivity | eexists; split; [reflexivity | simpl; lia]]].

Ltac slices_ok_tac :=
  repeat first [apply Forall_nil_2 | apply Forall_cons_2; [slice_ok_tac|]].

(** C1. For every sequence of [Add] calls on a fresh builder, with
    [MaxIovs >= 1], [Build] returns a table whose ranges, concatenated in
    table order, are the concatenation of the non-empty buffers passed to
    [Add], in call order; whether or not their number exceeds [MaxIovs]. *)
Theorem C1_concatenation MaxIovs spare h0 bufs :
  (1 ≤ MaxIovs)%Z →
  Forall (slice_ok h0) bufs →
  ∃ t h w,
    (adds MaxIovs spare bufs ;; Build) (h0, zero_Builder) = Ok (t, (h, w))
    ∧ gather h t = Some (concat (map (slice_bytes h0) (nonempties bufs))).
Proof.
  intros HM Hall.
  destruct (run_reach MaxIovs spare h0 bufs HM Hall) as (h & w & Hrun & Hr).
  exists (iovec w), h, w. split.
  - unfold bind. by rewrite Hrun.
  - unfold gather.
    destruct (reach_ranges _ _ _ _ _ Hr (Forall_nonempties _ _ Hall))
      as [(_ & _ & _ & ->) | (pre & post & -> & _ & _ & _ & _ & _ & _ & -> & _)]; simpl.
    + done.
    + rewrite map_app, !concat_app. simpl. by rewrite app_nil_r.
Qed.

Lemma C1_concatenation_witness :
  (1 ≤ 2)%Z
  ∧ Forall (slice_ok Scenario.mem)
      [Scenario.buf_a; nil_slice; Scenario.buf_b; Scenario.buf_e; Scenario.buf_c]
  ∧ ∃ t h w,
      (adds 2 Scenario.doubling
         [Scenario.buf_a; nil_slice; Scenario.buf_b; Scenario.buf_e; Scenario.buf_c]
       ;; Build) (Scenario.mem, zero_Builder) = Ok (t, (h, w))
      ∧ gather h t
        = Some (concat (map (slice_bytes Scenario.mem)
                  (nonempties [Scenario.buf_a; nil_slice; Scenario.buf_b;
                               Scenario.buf_e; Scenario.buf_c]))).
Proof.
  assert (1 ≤ 2)%Z as H1 by lia.
  assert (Forall (slice_ok Scenario.mem)
            [Scenario.buf_a; nil_slice; Scenario.buf_b; Scenario.buf_e; Scenario.buf_c])
    as H2 by slices_ok_tac.
  split; [exact H1|]. split; [exact H2|].
  exact (C1_concatenation 2 Scenario.doubling Scenario.mem _ H1 H2).
Defined.

(** C2, as amended.  The [Add] that fills the table keeps its buffer as the
    seed of the overflow buffer, the capacity cut to the length
    ([buf[:n:n]]); growing the seed by the next non-empty buffer therefore
    takes a fresh block, and no [Add] writes to a block of the caller.  After
    at least one further [Add] of a non-empty buffer the last descriptor
    points into a block of the builder's own: whatever the caller then writes
    to its memory, in particular to the buffer that filled the table, the
    bytes the last descriptor shows stay the bytes that were added. *)
Theorem C2_seed_capacity_cut MaxIovs spare h0 pre buf c post :
  (1 ≤ MaxIovs)%Z →
  Forall (slice_ok h0) pre →
  slice_ok h0 buf →
  0 < len buf →
  (Z.of_nat (length (nonempties pre)) + 1 = MaxIovs)%Z →
  slice_ok h0 c →
  0 < len c →
  Forall (slice_ok h0) post →
  nonempties post ≠ [] →
  (∃ w1,
     adds MaxIovs spare (pre ++ [buf]) (h0, zero_Builder) = Ok (tt, (h0, w1))
     ∧ overflow w1 = {| data := data buf; len := len buf; cap := len buf |}
     ∧ last (iovec w1) = Some {| Base := data buf; Len := len buf |}
     ∧ ∃ blk w2,
         Add MaxIovs spare c (h0, w1) = Ok (tt, (h0 ++ [blk], w2))
         ∧ data (overflow w2) = Addr (length h0) 0)
  ∧ (∃ t h w v,
       (adds MaxIovs spare (pre ++ buf :: post) ;; Build) (h0, zero_Builder)
         = Ok (t, (h, w))
       ∧ extends h0 h
       ∧ last t = Some v
       ∧ range h v
         = Some (slice_bytes h0 buf
                   ++ concat (map (slice_bytes h0) (nonempties post)))
       ∧ (∀ h', caller_mutation h0 h h' → range h' v = range h v)
       ∧ (∀ i bs h', overwrite h buf i bs = Some h' → range h' v = range h v)).
Proof.
  intros HM Hpre Hbuf Hpos Hfill Hc Hcpos Hpost Hne.
  assert (len buf ≠ 0) as Hnz by lia.
  split.
  - assert (Forall (slice_ok h0) (pre ++ [buf])) as Hall
      by (apply Forall_app; split; [done | by apply Forall_singleton]).
    destruct (run_reach MaxIovs spare h0 _ HM Hall) as (h & w & Hrun & Hr).
    rewrite nonempties_app in Hr. unfold nonempties at 2 in Hr.
    rewrite filter_cons_True, filter_nil in Hr by done.
    destruct (reach_ranges _ _ _ _ _ Hr)
      as [(Hlt & _) | (p' & q' & Happ & Hp' & _ & _ & Ht & _ & _ & _ & Hmode)].
    { apply Forall_app. split; [by apply Forall_nonempties | by apply Forall_singleton]. }
    { rewrite length_app in Hlt. simpl in Hlt. lia. }
    apply app_inj_1 in Happ as [<- <-]; [|lia].
    destruct Hmode as [(b0 & [= <-] & -> & Hov) | [Hlen2 _]]; [|simpl in Hlen2; lia].
    exists w. split; [done|]. split; [done|]. split.
    { rewrite Ht, Hov, last_snoc. done. }
    destruct w as [tbl ov]. simpl in Ht, Hov. subst tbl ov.
    destruct (merge_step MaxIovs spare h0 h0 (map borrowed (nonempties pre))
                {| Base := data (seed buf); Len := len (seed buf) |} (seed buf) c)
      as (h' & ov' & Hadd & _ & _ & _ & _ & _ & Hfresh); try done.
    + apply extends_refl.
    + destruct Hbuf as [? ?]. split; simpl; [lia | by eapply in_bounds_le].
    + by left.
    + rewrite length_app, length_map. simpl. lia.
    + destruct (Hfresh eq_refl) as (Hd & blk & ->).
      exists blk. eexists. split; [exact Hadd | exact Hd].
  - assert (Forall (slice_ok h0) (pre ++ buf :: post)) as Hall
      by (apply Forall_app; split; [done | by apply Forall_cons]).
    destruct (run_reach MaxIovs spare h0 _ HM Hall) as (h & w & Hrun & Hr).
    rewrite nonempties_app in Hr. unfold nonempties at 2 in Hr.
    rewrite filter_cons_True in Hr by done. fold (nonempties post) in Hr.
    destruct (reach_ranges _ _ _ _ _ Hr)
      as [(Hlt & _) | (p' & q' & Happ & Hp' & _ & Hext & Ht & _ & Hrange & _ & Hmode)].
    { apply Forall_app. split; [by apply Forall_nonempties|].
      apply Forall_cons. split; [done | by apply Forall_nonempties]. }
    { rewrite length_app in Hlt. simpl in Hlt. lia. }
    apply app_inj_1 in Happ as [<- <-]; [|lia].
    destruct Hmode as [(b0 & [= _ Hnil] & _) | [_ (b & o & Hd & Hb)]]; [done|].
    assert (∀ h', caller_mutation h0 h h' →
                  range h' {| Base := data (overflow w); Len := len (overflow w) |}
                  = range h {| Base := data (overflow w); Len := len (overflow w) |})
      as Hblind.
    { intros h' Hmut. eapply range_agree; [exact Hd | by apply Hmut]. }
    exists (iovec w), h, w, {| Base := data (overflow w); Len := len (overflow w) |}.
    split; [unfold bind; by rewrite Hrun|]. split; [done|].
    split; [by rewrite Ht, last_snoc|]. split; [exact Hrange|].
    split; [exact Hblind|].
    intros i bs h' Hw. apply Hblind.
    exact (overwrite_caller_mutation h0 h buf i bs h' Hbuf Hw).
Qed.

Lemma C2_seed_capacity_cut_witness :
  (1 ≤ 2)%Z
  ∧ Forall (slice_ok Scenario.mem) [Scenario.buf_a]
  ∧ slice_ok Scenario.mem Scenario.buf_b
  ∧ 0 < len Scenario.buf_b
  ∧ (Z.of_nat (length (nonempties [Scenario.buf_a])) + 1 = 2)%Z
  ∧ slice_ok Scenario.mem Scenario.buf_c
  ∧ 0 < len Scenario.buf_c
  ∧ Forall (slice_ok Scenario.mem) [Scenario.buf_e; Scenario.buf_c]
  ∧ nonempties [Scenario.buf_e; Scenario.buf_c] ≠ []
  ∧ (∃ w1,
       adds 2 Scenario.doubling ([Scenario.buf_a] ++ [Scenario.buf_b])
         (Scenario.mem, zero_Builder) = Ok (tt, (Scenario.mem, w1))
       ∧ overflow w1 = {| data := Addr 1 0; len := 3; cap := 3 |}
       ∧ last (iovec w1) = Some {| Base := Addr 1 0; Len := 3 |}
       ∧ ∃ blk w2,
           Add 2 Scenario.doubling Scenario.buf_c (Scenario.mem, w1)
             = Ok (tt, (Scenario.mem ++ [blk], w2))
           ∧ data (overflow w2) = Addr (length Scenario.mem) 0)
  ∧ (∃ t h w v,
       (adds 2 Scenario.doubling
          ([Scenario.buf_a] ++ Scenario.buf_b :: [Scenario.buf_e; Scenario.buf_c])
        ;; Build) (Scenario.mem, zero_Builder) = Ok (t, (h, w))
       ∧ extends Scenario.mem h
       ∧ last t = Some v
       ∧ range h v
         = Some (slice_bytes Scenario.mem Scenario.buf_b
                   ++ concat (map (slice_bytes Scenario.mem)
                                (nonempties [Scenario.buf_e; Scenario.buf_c])))
       ∧ (∀ h', caller_mutation Scenario.mem h h' → range h' v = range h v)
       ∧ (∀ i bs h',
            overwrite h Scenario.buf_b i bs = Some h' → range h' v = range h v)).
Proof.
  assert (1 ≤ 2)%Z as H1 by lia.
  assert (Forall (slice_ok Scenario.mem) [Scenario.buf_a]) as H2 by slices_ok_tac.
  assert (slice_ok Scenario.mem Scenario.buf_b) as H3 by slice_ok_tac.
  assert (0 < len Scenario.buf_b) as H4 by (simpl; lia).
  assert (Z.of_nat (length (nonempties [Scenario.buf_a])) + 1 = 2)%Z as H5
    by reflexivity.
  assert (slice_ok Scenario.mem Scenario.buf_c) as H6 by slice_ok_tac.
  assert (0 < len Scenario.buf_c) as H7 by (simpl; lia).
  assert (Forall (slice_ok Scenario.mem) [Scenario.buf_e; Scenario.buf_c]) as H8
    by slices_ok_tac.
  assert (nonempties [Scenario.buf_e; Scenario.buf_c] ≠ []) as H9
    by (vm_compute; discriminate).
  split; [exact H1|]. split; [exact H2|]. split; [exact H3|]. split; [exact H4|].
  split; [exact H5|]. split; [exact H6|]. split; [exact H7|]. split; [exact H8|].
  split; [exact H9|].
  exact (C2_seed_capacity_cut 2 Scenario.doubling Scenario.mem _ _ _ _
           H1 H2 H3 H4 H5 H6 H7 H8 H9).
Defined.

(** C2, as stated, fails in two places.  A further [Add] of a zero-length
    buffer changes nothing, so the last descriptor still points into the
    buffer that filled the table, and a write to that buffer shows through
    it.  And once the seed has been outgrown, a later merge-mode [Add] may
    grow the overflow buffer in place, in the builder's own block, when the
    runtime granted spare capacity: no fresh storage is taken then. *)
Lemma C2_as_stated_fails :
  (∃ t h w v h',
     (adds 1 Scenario.doubling [Scenario.buf_a; nil_slice] ;; Build)
       (Scenario.mem, zero_Builder) = Ok (t, (h, w))
     ∧ last t = Some v
     ∧ range h v = Some [x01; x02]
     ∧ overwrite h Scenario.buf_a 0 [xff] = Some h'
     ∧ range h' v = Some [xff; x02]
     ∧ range h' v ≠ range h v)
  ∧ (∃ h2 w2 h3 w3,
       adds 1 Scenario.doubling [Scenario.buf_a; Scenario.buf_d]
         (Scenario.mem, zero_Builder) = Ok (tt, (h2, w2))
       ∧ Add 1 Scenario.doubling Scenario.buf_d (h2, w2) = Ok (tt, (h3, w3))
       ∧ length h3 = length h2
       ∧ data (overflow w3) = data (overflow w2)
       ∧ len (overflow w3) = len (overflow w2) + len Scenario.buf_d).
Proof.
  split.
  - eexists _, _, _, _, _.
    repeat (split; [reflexivity|]). discriminate.
  - eexists _, _, _, _. repeat split; reflexivity.
Qed.

(** C3. A non-empty buffer added while the table holds [MaxIovs] entries is
    copied behind the bytes of the overflow buffer, and the last descriptor
    of the table is rewritten: its base is the address of the first byte of
    the overflow buffer as it is now, its length the new length of the
    overflow buffer.  With [MaxIovs = 2], adding [01 02], [03 04 05] and
    [06 07 08 09] builds two descriptors, with the ranges [01 02] and
    [03 04 05 06 07 08 09]. *)
Theorem C3_merge_mode MaxIovs spare h0 bufs buf h w m a b c :
  (1 ≤ MaxIovs)%Z →
  Forall (slice_ok h0) bufs →
  slice_ok h0 buf →
  0 < len buf →
  adds MaxIovs spare bufs (h0, zero_Builder) = Ok (tt, (h, w)) →
  Z.of_nat (length (iovec w)) = MaxIovs →
  slice_ok m a → slice_ok m b → slice_ok m c →
  slice_bytes m a = [x01; x02] →
  slice_bytes m b = [x03; x04; x05] →
  slice_bytes m c = [x06; x07; x08; x09] →
  (∃ h' ov',
     Add MaxIovs spare buf (h, w)
       = Ok (tt, (h', {| iovec := take (length (iovec w) - 1) (iovec w)
                                    ++ [{| Base := data ov'; Len := len ov' |}];
                         overflow := ov' |}))
     ∧ slice_ok h' ov'
     ∧ len ov' = len (overflow w) + len buf
     ∧ slice_bytes h' ov' = slice_bytes h (overflow w) ++ slice_bytes h0 buf
     ∧ extends h0 h')
  ∧ (∃ t h' w',
       (adds 2 spare [a; b; c] ;; Build) (m, zero_Builder) = Ok (t, (h', w'))
       ∧ ranges h' t = Some [[x01; x02]; [x03; x04; x05; x06; x07; x08; x09]]).
Proof.
  intros HM Hall Hbuf Hpos Hrun Hfull Ha Hb Hc Ea Eb Ec. split.
  - pose proof (run_reach_eq _ _ _ _ _ _ HM Hall Hrun) as Hr.
    destruct (reach_full _ _ _ _ _ Hr ltac:(lia))
      as (t & old & Ht & Hext & Hov & Hmode).
    destruct w as [tbl ov]. simpl in *. subst tbl.
    destruct (merge_step MaxIovs spare h0 h t old ov buf)
      as (h' & ov' & Hadd & Hok' & Hlen' & Hbytes' & Hext' & _); try done; [lia|].
    exists h', ov'. split; [|done].
    rewrite Hadd, length_app. simpl.
    by rewrite Nat.add_sub, take_app_length.
  - assert (Forall (slice_ok m) [a; b; c]) as Habc
      by (repeat first [apply Forall_nil_2 | apply Forall_cons_2; [done|]]).
    assert (nonempties [a; b; c] = [a; b; c]) as Hne.
    { pose proof (length_slice_bytes _ _ Ha) as La.
      pose proof (length_slice_bytes _ _ Hb) as Lb.
      pose proof (length_slice_bytes _ _ Hc) as Lc.
      rewrite Ea in La. rewrite Eb in Lb. rewrite Ec in Lc. simpl in *.
      unfold nonempties. by rewrite !filter_cons_True, filter_nil by lia. }
    destruct (run_reach 2 spare m [a; b; c] ltac:(lia) Habc) as (h' & w' & Hrun' & Hr).
    rewrite Hne in Hr.
    exists (iovec w'), h', w'. split; [unfold bind; by rewrite Hrun'|].
    destruct (reach_ranges _ _ _ _ _ Hr Habc)
      as [(Hlt & _) | (pre & post & Happ & Hpre & _ & _ & _ & _ & _ & -> & _)].
    + simpl in Hlt. lia.
    + destruct pre as [|p [|p' pre]]; simpl in Hpre; try lia.
      injection Happ as <- <-. simpl. by rewrite Ea, Eb, Ec.
Qed.

Lemma C3_merge_mode_witness :
  (1 ≤ 2)%Z
  ∧ Forall (slice_ok Scenario.mem) [Scenario.buf_a; Scenario.buf_b]
  ∧ slice_ok Scenario.mem Scenario.buf_c
  ∧ 0 < len Scenario.buf_c
  ∧ adds 2 Scenario.doubling [Scenario.buf_a; Scenario.buf_b]
      (Scenario.mem, zero_Builder)
    = Ok (tt, (Scenario.mem,
               {| iovec := [borrowed Scenario.buf_a; borrowed Scenario.buf_b];
                  overflow := seed Scenario.buf_b |}))
  ∧ (∃ h' ov',
       Add 2 Scenario.doubling Scenario.buf_c
         (Scenario.mem,
          {| iovec := [borrowed Scenario.buf_a; borrowed Scenario.buf_b];
             overflow := seed Scenario.buf_b |})
       = Ok (tt, (h', {| iovec := [borrowed Scenario.buf_a;
                                   {| Base := data ov'; Len := len ov' |}];
                         overflow := ov' |}))
       ∧ slice_ok h' ov'
       ∧ len ov' = 3 + 4
       ∧ slice_bytes h' ov' = [x03; x04; x05] ++ [x06; x07; x08; x09]
       ∧ extends Scenario.mem h')
  ∧ (∃ t h' w',
       (adds 2 Scenario.doubling [Scenario.buf_a; Scenario.buf_b; Scenario.buf_c]
        ;; Build) (Scenario.mem, zero_Builder) = Ok (t, (h', w'))
       ∧ ranges h' t = Some [[x01; x02]; [x03; x04; x05; x06; x07; x08; x09]]).
Proof.
  assert (1 ≤ 2)%Z as H1 by lia.
  assert (Forall (slice_ok Scenario.mem) [Scenario.buf_a; Scenario.buf_b]) as H2
    by slices_ok_tac.
  assert (slice_ok Scenario.mem Scenario.buf_a) as Ha by slice_ok_tac.
  assert (slice_ok Scenario.mem Scenario.buf_b) as Hb by slice_ok_tac.
  assert (slice_ok Scenario.mem Scenario.buf_c) as Hc by slice_ok_tac.
  assert (0 < len Scenario.buf_c) as H4 by (simpl; lia).
  assert (adds 2 Scenario.doubling [Scenario.buf_a; Scenario.buf_b]
            (Scenario.mem, zero_Builder)
          = Ok (tt, (Scenario.mem,
                     {| iovec := [borrowed Scenario.buf_a; borrowed Scenario.buf_b];
                        overflow := seed Scenario.buf_b |}))) as H5 by reflexivity.
  split; [exact H1|]. split; [exact H2|]. split; [exact Hc|]. split; [exact H4|].
  split; [exact H5|].
  exact (C3_merge_mode 2 Scenario.doubling Scenario.mem _ Scenario.buf_c _ _
           Scenario.mem Scenario.buf_a Scenario.buf_b Scenario.buf_c
           H1 H2 Hc H4 H5 eq_refl Ha Hb Hc eq_refl eq_refl eq_refl).
Defined.

(** C4. For every sequence of non-empty buffers whose count is at most
    [MaxIovs], [Build] returns exactly one descriptor per buffer, in the
    order of the [Add] calls, each with the address of the first byte of its
    buffer as base and the length of its buffer as length. *)
Theorem C4_one_descriptor_per_buffer MaxIovs spare h0 bufs :
  Forall (λ buf, 0 < len buf ≤ cap buf) bufs →
  (Z.of_nat (length bufs) ≤ MaxIovs)%Z →
  ∃ w,
    (adds MaxIovs spare bufs ;; Build) (h0, zero_Builder)
      = Ok (map (λ buf, {| Base := data buf; Len := len buf |}) bufs, (h0, w)).
Proof.
  intros Hall Hlen.
  destruct (adds_direct MaxIovs spare bufs h0 zero_Builder Hall) as [ov Hrun];
    [simpl; lia|].
  eexists. unfold bind. rewrite Hrun. reflexivity.
Qed.

Lemma C4_one_descriptor_per_buffer_witness :
  Forall (λ buf, 0 < len buf ≤ cap buf) [Scenario.buf_a; Scenario.buf_b; Scenario.buf_c]
  ∧ (Z.of_nat (length [Scenario.buf_a; Scenario.buf_b; Scenario.buf_c]) ≤ 3)%Z
  ∧ ∃ w,
      (adds 3 Scenario.tight [Scenario.buf_a; Scenario.buf_b; Scenario.buf_c] ;; Build)
        (Scenario.mem, zero_Builder)
      = Ok (map (λ buf, {| Base := data buf; Len := len buf |})
              [Scenario.buf_a; Scenario.buf_b; Scenario.buf_c], (Scenario.mem, w)).
Proof.
  assert (Forall (λ buf, 0 < len buf ≤ cap buf)
            [Scenario.buf_a; Scenario.buf_b; Scenario.buf_c]) as H1
    by (repeat first [apply Forall_nil_2 | apply Forall_cons_2; [simpl; lia|]]).
  assert (Z.of_nat (length [Scenario.buf_a; Scenario.buf_b; Scenario.buf_c]) ≤ 3)%Z
    as H2 by (simpl; lia).
  split; [exact H1|]. split; [exact H2|].
  exact (C4_one_descriptor_per_buffer 3 Scenario.tight Scenario.mem _ H1 H2).
Defined.

(** C5. From the empty builder the table never holds more than [MaxIovs]
    descriptors, after every [Add] call; and when more than [MaxIovs]
    non-empty buffers were added, [Build] returns exactly [MaxIovs]
    descriptors. *)
Theorem C5_table_bound MaxIovs spare h0 bufs :
  (1 ≤ MaxIovs)%Z →
  Forall (slice_ok h0) bufs →
  ∃ t h w,
    (adds MaxIovs spare bufs ;; Build) (h0, zero_Builder) = Ok (t, (h, w))
    ∧ (0 ≤ Z.of_nat (length t) ≤ MaxIovs)%Z
    ∧ ((MaxIovs < Z.of_nat (length (nonempties bufs)))%Z →
       Z.of_nat (length t) = MaxIovs).
Proof.
  intros HM Hall.
  destruct (run_reach MaxIovs spare h0 bufs HM Hall) as (h & w & Hrun & Hr).
  pose proof (reach_length _ _ _ _ _ Hr (Forall_nonempties _ _ Hall)) as Hlen.
  exists (iovec w), h, w. split; [|lia].
  unfold bind. by rewrite Hrun.
Qed.

Lemma C5_table_bound_witness :
  (1 ≤ 2)%Z
  ∧ Forall (slice_ok Scenario.mem) [Scenario.buf_a; Scenario.buf_b; Scenario.buf_c]
  ∧ ∃ t h w,
      (adds 2 Scenario.tight [Scenario.buf_a; Scenario.buf_b; Scenario.buf_c] ;; Build)
        (Scenario.mem, zero_Builder) = Ok (t, (h, w))
      ∧ (0 ≤ Z.of_nat (length t) ≤ 2)%Z
      ∧ ((2 < Z.of_nat (length (nonempties
                 [Scenario.buf_a; Scenario.buf_b; Scenario.buf_c])))%Z →
         Z.of_nat (length t) = 2%Z).
Proof.
  assert (1 ≤ 2)%Z as H1 by lia.
  assert (Forall (slice_ok Scenario.mem) [Scenario.buf_a; Scenario.buf_b; Scenario.buf_c])
    as H2 by slices_ok_tac.
  split; [exact H1|]. split; [exact H2|].
  exact (C5_table_bound 2 Scenario.tight Scenario.mem _ H1 H2).
Defined.

(** C6. [Add] of a zero-length buffer is a no-op in every state of the
    builder: no descriptor, and table, overflow buffer and heap as before.
    [Build] on a fresh builder returns the empty table, and so it does after
    any number of zero-length [Add]s. *)
Theorem C6_empty_add_is_noop MaxIovs spare buf σ bufs h :
  len buf = 0 →
  Forall (λ b, len b = 0) bufs →
  Add MaxIovs spare buf σ = Ok (tt, σ)
  ∧ Build (h, zero_Builder) = Ok ([], (h, zero_Builder))
  ∧ (adds MaxIovs spare bufs ;; Build) (h, zero_Builder)
    = Ok ([], (h, zero_Builder)).
Proof.
  intros Hbuf Hall. split; [by apply Add_empty|]. split; [done|].
  unfold bind. by rewrite adds_empty.
Qed.

Lemma C6_empty_add_is_noop_witness :
  len Scenario.buf_e = 0
  ∧ Forall (λ b, len b = 0) [nil_slice; Scenario.buf_e; nil_slice]
  ∧ Add 8 Scenario.doubling Scenario.buf_e
      (Scenario.mem, {| iovec := [borrowed Scenario.buf_a]; overflow := nil_slice |})
    = Ok (tt, (Scenario.mem,
               {| iovec := [borrowed Scenario.buf_a]; overflow := nil_slice |}))
  ∧ Build (Scenario.mem, zero_Builder) = Ok ([], (Scenario.mem, zero_Builder))
  ∧ (adds 8 Scenario.doubling [nil_slice; Scenario.buf_e; nil_slice] ;; Build)
      (Scenario.mem, zero_Builder)
    = Ok ([], (Scenario.mem, zero_Builder)).
Proof.
  assert (len Scenario.buf_e = 0) as H1 by reflexivity.
  assert (Forall (λ b, len b = 0) [nil_slice; Scenario.buf_e; nil_slice]) as H2
    by (repeat first [apply Forall_nil_2 | apply Forall_cons_2; [reflexivity|]]).
  split; [exact H1|]. split; [exact H2|].
  exact (C6_empty_add_is_noop 8 Scenario.doubling Scenario.buf_e _ _ Scenario.mem H1 H2).
Defined.

(** C7. [Build] leaves the builder (and the heap) as it is, and two
    consecutive calls of [Build] return the same table. *)
Theorem C7_build_is_pure (σ : world) :
  ∃ t,
    Build σ = Ok (t, σ)
    ∧ (t1 <- Build ;; t2 <- Build ;; ret (t1, t2)) σ = Ok ((t, t), σ).
Proof. destruct σ as [h w]. by exists (iovec w). Qed.

(** C8. With [MaxIovs >= 1] every [Add] on a builder reached from the empty
    builder returns without a panic: [&buf[0]], [w.iovec[len(w.iovec)-1]]
    and [&w.overflow[0]] are in bounds, merge mode being entered only with a
    non-empty table and a non-empty overflow buffer.  With [MaxIovs = 0] the
    first [Add] of a non-empty buffer indexes the empty table at [-1]. *)
Theorem C8_add_is_safe MaxIovs spare h0 bufs buf buf0 :
  (1 ≤ MaxIovs)%Z →
  Forall (slice_ok h0) bufs →
  slice_ok h0 buf →
  slice_ok h0 buf0 →
  0 < len buf0 →
  (∃ h w σ',
     adds MaxIovs spare bufs (h0, zero_Builder) = Ok (tt, (h, w))
     ∧ ((MaxIovs ≤ Z.of_nat (length (iovec w)))%Z →
        iovec w ≠ [] ∧ 0 < len (overflow w))
     ∧ Add MaxIovs spare buf (h, w) = Ok (tt, σ'))
  ∧ Add 0 spare buf0 (h0, zero_Builder) = Panic (IndexOutOfRange (-1) 0).
Proof.
  intros HM Hall Hbuf Hbuf0 Hpos. split.
  - destruct (run_reach MaxIovs spare h0 bufs HM Hall) as (h & w & Hrun & Hr).
    pose proof (Forall_nonempties _ _ Hall) as Hne.
    assert (∃ σ', Add MaxIovs spare buf (h, w) = Ok (tt, σ')) as [σ' Hadd].
    { destruct (decide (len buf = 0)) as [E|E].
      - exists (h, w). by apply Add_empty.
      - destruct (Add_reach MaxIovs spare h0 _ _ buf Hr Hbuf ltac:(lia)) as (σ' & ? & _).
        by exists σ'. }
    exists h, w, σ'. split; [done|]. split; [|done].
    intros Hfull.
    destruct (reach_ranges _ _ _ _ _ Hr Hne)
      as [(Hlt & _ & -> & _) | (pre & post & _ & _ & _ & _ & -> & ? & _)].
    + simpl in Hfull. rewrite length_map in Hfull. lia.
    + split; [|done]. by destruct (map borrowed pre).
  - rewrite Add_merge by (simpl; lia).
    unfold addByAppend, grow_overflow, bind. simpl overflow.
    rewrite append_fresh by (done || apply slice_ok_nil || (simpl; lia)).
    cbn. unfold lift. by rewrite index_addr_0 by (simpl; lia).
Qed.

Lemma C8_add_is_safe_witness :
  (1 ≤ 1)%Z
  ∧ Forall (slice_ok Scenario.mem) [Scenario.buf_a; Scenario.buf_b]
  ∧ slice_ok Scenario.mem Scenario.buf_c
  ∧ slice_ok Scenario.mem Scenario.buf_a
  ∧ 0 < len Scenario.buf_a
  ∧ (∃ h w σ',
       adds 1 Scenario.doubling [Scenario.buf_a; Scenario.buf_b]
         (Scenario.mem, zero_Builder) = Ok (tt, (h, w))
       ∧ ((1 ≤ Z.of_nat (length (iovec w)))%Z →
          iovec w ≠ [] ∧ 0 < len (overflow w))
       ∧ Add 1 Scenario.doubling Scenario.buf_c (h, w) = Ok (tt, σ'))
  ∧ Add 0 Scenario.doubling Scenario.buf_a (Scenario.mem, zero_Builder)
    = Panic (IndexOutOfRange (-1) 0).
Proof.
  assert (1 ≤ 1)%Z as H1 by lia.
  assert (Forall (slice_ok Scenario.mem) [Scenario.buf_a; Scenario.buf_b]) as H2
    by slices_ok_tac.
  assert (slice_ok Scenario.mem Scenario.buf_c) as H3 by slice_ok_tac.
  assert (slice_ok Scenario.mem Scenario.buf_a) as H4 by slice_ok_tac.
  assert (0 < len Scenario.buf_a) as H5 by (simpl; lia).
  split; [exact H1|]. split; [exact H2|]. split; [exact H3|]. split; [exact H4|].
  split; [exact H5|].
  exact (C8_add_is_safe 1 Scenario.doubling Scenario.mem _ _ _ H1 H2 H3 H4 H5).
Defined.

(** C9. In every builder reached from the empty builder, with
    [MaxIovs >= 1], the overflow buffer is non-empty exactly when the table
    holds [MaxIovs] descriptors; and when it is non-empty, the length of the
    last descriptor is the length of the overflow buffer. *)
Theorem C9_overflow_iff_saturated MaxIovs spare h0 bufs :
  (1 ≤ MaxIovs)%Z →
  Forall (slice_ok h0) bufs →
  ∃ h w,
    adds MaxIovs spare bufs (h0, zero_Builder) = Ok (tt, (h, w))
    ∧ (0 < len (overflow w) ↔ Z.of_nat (length (iovec w)) = MaxIovs)
    ∧ (0 < len (overflow w) →
       ∃ v, last (iovec w) = Some v ∧ Len v = len (overflow w)).
Proof.
  intros HM Hall.
  destruct (run_reach MaxIovs spare h0 bufs HM Hall) as (h & w & Hrun & Hr).
  exists h, w. split; [done|].
  destruct (reach_ranges _ _ _ _ _ Hr (Forall_nonempties _ _ Hall))
    as [(Hlt & _ & -> & _) | (pre & post & _ & Hpre & _ & _ & Ht & Hpos & _)].
  - simpl. rewrite length_map. split; [split|]; lia.
  - rewrite Ht, length_app, length_map, last_snoc. simpl. split.
    + split; [lia | done].
    + intros _. by eexists.
Qed.

Lemma C9_overflow_iff_saturated_witness :
  (1 ≤ 2)%Z
  ∧ Forall (slice_ok Scenario.mem) [Scenario.buf_a; Scenario.buf_b; Scenario.buf_c]
  ∧ ∃ h w,
      adds 2 Scenario.doubling [Scenario.buf_a; Scenario.buf_b; Scenario.buf_c]
        (Scenario.mem, zero_Builder) = Ok (tt, (h, w))
      ∧ (0 < len (overflow w) ↔ Z.of_nat (length (iovec w)) = 2%Z)
      ∧ (0 < len (overflow w) →
         ∃ v, last (iovec w) = Some v ∧ Len v = len (overflow w)).
Proof.
  assert (1 ≤ 2)%Z as H1 by lia.
  assert (Forall (slice_ok Scenario.mem) [Scenario.buf_a; Scenario.buf_b; Scenario.buf_c])
    as H2 by slices_ok_tac.
  split; [exact H1|]. split; [exact H2|].
  exact (C9_overflow_iff_saturated 2 Scenario.doubling Scenario.mem _ H1 H2).
Defined.

(** C10. [Add] after [Build] is permitted and not affected by the [Build]:
    adding [s1], building, adding [s2] and building has the same outcome
    (the same final table, in the same world) as adding [s1 ++ s2] and
    building once. *)
Theorem C10_add_after_build MaxIovs spare s1 s2 (σ : world) :
  (adds MaxIovs spare s1 ;; Build ;; adds MaxIovs spare s2 ;; Build) σ
  = (adds MaxIovs spare (s1 ++ s2) ;; Build) σ.
Proof.
  unfold bind at 1 4. rewrite adds_app. unfold bind.
  by destruct (adds MaxIovs spare s1 σ) as [[[] [h w]]|].
Qed.

(** * Further properties of the builder *)

Module IovecMore.
Section Builder.
Variable MaxIovs : Z.
Variable spare : nat → nat → nat.

Local Abbreviation Add := (Add MaxIovs spare).
Local Abbreviation adds := (adds MaxIovs spare).

Lemma adds_nonempties bufs (σ : world) : adds bufs σ = adds (nonempties bufs) σ.
Proof.
  revert σ. induction bufs as [|buf bufs IH]; intros σ; [done|].
  unfold nonempties. destruct (decide (len buf = 0)) as [E|E].
  - rewrite filter_cons_False by (by intros ?). simpl. unfold bind.
    rewrite Add_empty by done. apply IH.
  - rewrite filter_cons_True by done. simpl. unfold bind.
    destruct (Add buf σ) as [[[] σ1]|]; [apply IH | done].
Qed.

Lemma range_Some_length h v bs : range h v = Some bs → length bs = Len v.
Proof.
  unfold range, load. destruct (in_boundsb h (Base v) (Len v)) eqn:E; [|done].
  intros [= <-]. apply length_peek. by apply in_boundsb_true.
Qed.

Lemma length_concat_bytes h0 l :
  Forall (slice_ok h0) l →
  length (concat (map (slice_bytes h0) l)) = sum_list_with len l.
Proof.
  induction 1 as [|buf l Hbuf _ IH]; [done|].
  simpl. rewrite length_app, IH. by rewrite length_slice_bytes.
Qed.

Lemma sum_borrowed l : sum_list_with Len (map borrowed l) = sum_list_with len l.
Proof. induction l as [|buf l IH]; [done|]. simpl. by rewrite IH. Qed.

Lemma sum_nonempties bufs :
  sum_list_with len (nonempties bufs) = sum_list_with len bufs.
Proof.
  induction bufs as [|buf bufs IH]; [done|]. unfold nonempties.
  destruct (decide (len buf = 0)) as [E|E].
  - rewrite filter_cons_False by (by intros ?). simpl. rewrite E. apply IH.
  - rewrite filter_cons_True by done. simpl. f_equal. apply IH.
Qed.

Lemma lookup_map {A B} (f : A → B) (l : list A) i :
  map f l !! i = f <$> (l !! i).
Proof.
  revert i. induction l as [|x l IH]; intros [|i]; simpl; [done..|apply IH].
Qed.

Lemma ranges_is_Some h t rs :
  ranges h t = Some rs → Forall (λ v, is_Some (range h v)) t.
Proof.
  revert rs. induction t as [|v t IH]; intros rs; simpl; [by constructor|].
  destruct (range h v) as [bs|] eqn:E; [|done].
  destruct (ranges h t) as [r|]; [|done].
  intros _. constructor; [by eexists | by eapply IH].
Qed.

(** The shape of the table of a reachable builder, by the number of
    non-empty buffers added. *)
Lemma reach_table h0 ne h w :
  reach MaxIovs h0 ne (h, w) → Forall (slice_ok h0) ne →
  ((Z.of_nat (length ne) < MaxIovs)%Z ∧ h = h0 ∧ iovec w = map borrowed ne)
  ∨ ((MaxIovs ≤ Z.of_nat (length ne))%Z
     ∧ extends h0 h
     ∧ iovec w = map borrowed (take (Z.to_nat MaxIovs - 1) ne)
                   ++ [{| Base := data (overflow w); Len := len (overflow w) |}]
     ∧ 0 < len (overflow w)
     ∧ range h {| Base := data (overflow w); Len := len (overflow w) |}
       = Some (concat (map (slice_bytes h0) (drop (Z.to_nat MaxIovs - 1) ne)))
     ∧ (Z.of_nat (length ne) = MaxIovs → h = h0)).
Proof.
  intros Hr Hall.
  destruct (reach_ranges _ _ _ _ _ Hr Hall)
    as [(Hlt & -> & -> & _)
       | (pre & post & -> & Hpre & Hpost & Hext & Ht & Hpos & Hrange & _ & Hmode)].
  - by left.
  - right. replace (Z.to_nat MaxIovs - 1) with (length pre) by lia.
    assert (0 < length post) by (destruct post; [done | simpl; lia]).
    rewrite take_app_length, drop_app_length.
    split; [rewrite length_app; lia|]. split; [done|]. split; [done|].
    split; [done|]. split; [done|].
    rewrite length_app. intros Hlen.
    destruct Hmode as [(b0 & _ & -> & _) | [? _]]; [done | lia].
Qed.

(** Before the last slot of the table a descriptor is the borrowed
    descriptor of the buffer with the same index. *)
Lemma reach_lookup h0 ne h w i :
  reach MaxIovs h0 ne (h, w) → Forall (slice_ok h0) ne →
  (Z.of_nat i + 1 < MaxIovs)%Z →
  iovec w !! i = borrowed <$> (ne !! i).
Proof.
  intros Hr Hall Hi.
  destruct (reach_table _ _ _ _ Hr Hall) as [(_ & _ & ->) | (Hfull & _ & -> & _)].
  - apply lookup_map.
  - rewrite lookup_app_l by (rewrite length_map, length_take; lia).
    rewrite lookup_map. f_equal. apply lookup_take_lt. lia.
Qed.

(** With [MaxIovs] not positive the first non-empty buffer sends [Add] to
    merge mode on an empty table. *)
Lemma Add_panics_without_room h buf :
  (MaxIovs ≤ 0)%Z → slice_ok h buf → 0 < len buf →
  Add buf (h, zero_Builder) = Panic (IndexOutOfRange (-1) 0).
Proof.
  intros HM Hbuf Hpos. rewrite Add_merge by (simpl; lia).
  unfold addByAppend, grow_overflow, bind. simpl overflow.
  rewrite append_fresh by (done || apply slice_ok_nil || (simpl; lia)).
  cbn. unfold lift. by rewrite index_addr_0 by (simpl; lia).
Qed.
End Builder.
End IovecMore.

Import IovecMore.

(** X1. Zero-length buffers do not matter anywhere in a run of [Add]
    calls: from every world, a run has the outcome of the run without its
    zero-length buffers. *)
Theorem X1_empty_buffers_are_skipped MaxIovs spare bufs (σ : world) :
  adds MaxIovs spare bufs σ = adds MaxIovs spare (nonempties bufs) σ.
Proof. apply adds_nonempties. Qed.

(** X2. When at least [MaxIovs] non-empty buffers were added, the table is
    the borrowed descriptors of the first [MaxIovs - 1] of them, followed by
    one descriptor whose range is the concatenation of all the others. *)
Theorem X2_saturated_table MaxIovs spare h0 bufs :
  (1 ≤ MaxIovs)%Z →
  Forall (slice_ok h0) bufs →
  (MaxIovs ≤ Z.of_nat (length (nonempties bufs)))%Z →
  ∃ t h w v,
    (adds MaxIovs spare bufs ;; Build) (h0, zero_Builder) = Ok (t, (h, w))
    ∧ t = map (λ buf, {| Base := data buf; Len := len buf |})
            (take (Z.to_nat MaxIovs - 1) (nonempties bufs)) ++ [v]
    ∧ range h v
      = Some (concat (map (slice_bytes h0)
                        (drop (Z.to_nat MaxIovs - 1) (nonempties bufs)))).
Proof.
  intros HM Hall Hfull.
  destruct (run_reach MaxIovs spare h0 bufs HM Hall) as (h & w & Hrun & Hr).
  destruct (reach_table _ _ _ _ _ Hr (Forall_nonempties _ _ Hall))
    as [(Hlt & _) | (_ & _ & Ht & _ & Hrange & _)]; [lia|].
  exists (iovec w), h, w, {| Base := data (overflow w); Len := len (overflow w) |}.
  split; [unfold bind; by rewrite Hrun|]. by split.
Qed.

Lemma X2_saturated_table_witness :
  (1 ≤ 2)%Z
  ∧ Forall (slice_ok Scenario.mem)
      [Scenario.buf_a; Scenario.buf_e; Scenario.buf_b; Scenario.buf_c; Scenario.buf_d]
  ∧ (2 ≤ Z.of_nat (length (nonempties
        [Scenario.buf_a; Scenario.buf_e; Scenario.buf_b; Scenario.buf_c;
         Scenario.buf_d])))%Z
  ∧ ∃ t h w v,
      (adds 2 Scenario.doubling
         [Scenario.buf_a; Scenario.buf_e; Scenario.buf_b; Scenario.buf_c;
          Scenario.buf_d] ;; Build) (Scenario.mem, zero_Builder) = Ok (t, (h, w))
      ∧ t = map (λ buf, {| Base := data buf; Len := len buf |})
              (take (Z.to_nat 2 - 1)
                 (nonempties [Scenario.buf_a; Scenario.buf_e; Scenario.buf_b;
                              Scenario.buf_c; Scenario.buf_d])) ++ [v]
      ∧ range h v
        = Some (concat (map (slice_bytes Scenario.mem)
                  (drop (Z.to_nat 2 - 1)
                     (nonempties [Scenario.buf_a; Scenario.buf_e; Scenario.buf_b;
                                  Scenario.buf_c; Scenario.buf_d])))).
Proof.
  assert (1 ≤ 2)%Z as H1 by lia.
  assert (Forall (slice_ok Scenario.mem)
            [Scenario.buf_a; Scenario.buf_e; Scenario.buf_b; Scenario.buf_c;
             Scenario.buf_d]) as H2 by slices_ok_tac.
  assert (2 ≤ Z.of_nat (length (nonempties
            [Scenario.buf_a; Scenario.buf_e; Scenario.buf_b; Scenario.buf_c;
             Scenario.buf_d])))%Z as H3 by (vm_compute; discriminate).
  split; [exact H1|]. split; [exact H2|]. split; [exact H3|].
  exact (X2_saturated_table 2 Scenario.doubling Scenario.mem _ H1 H2 H3).
Defined.

(** X3. The lengths of the descriptors of the built table add up to the
    total length of the buffers passed to [Add]. *)
Theorem X3_total_length MaxIovs spare h0 bufs :
  (1 ≤ MaxIovs)%Z →
  Forall (slice_ok h0) bufs →
  ∃ t h w,
    (adds MaxIovs spare bufs ;; Build) (h0, zero_Builder) = Ok (t, (h, w))
    ∧ sum_list_with Len t = sum_list_with len bufs.
Proof.
  intros HM Hall.
  destruct (run_reach MaxIovs spare h0 bufs HM Hall) as (h & w & Hrun & Hr).
  pose proof (Forall_nonempties _ _ Hall) as Hne.
  exists (iovec w), h, w. split; [unfold bind; by rewrite Hrun|].
  rewrite <- sum_nonempties.
  destruct (reach_table _ _ _ _ _ Hr Hne)
    as [(_ & _ & ->) | (_ & _ & -> & _ & Hrange & _)].
  - apply sum_borrowed.
  - apply range_Some_length in Hrange. simpl in Hrange.
    rewrite length_concat_bytes in Hrange by (by apply Forall_drop).
    rewrite sum_list_with_app, sum_borrowed. simpl.
    rewrite <- Hrange, Nat.add_0_r, <- sum_list_with_app.
    by rewrite take_drop.
Qed.

Lemma X3_total_length_witness :
  (1 ≤ 2)%Z
  ∧ Forall (slice_ok Scenario.mem)
      [Scenario.buf_a; Scenario.buf_e; Scenario.buf_b; Scenario.buf_c]
  ∧ ∃ t h w,
      (adds 2 Scenario.doubling
         [Scenario.buf_a; Scenario.buf_e; Scenario.buf_b; Scenario.buf_c] ;; Build)
        (Scenario.mem, zero_Builder) = Ok (t, (h, w))
      ∧ sum_list_with Len t
        = sum_list_with len
            [Scenario.buf_a; Scenario.buf_e; Scenario.buf_b; Scenario.buf_c].
Proof.
  assert (1 ≤ 2)%Z as H1 by lia.
  assert (Forall (slice_ok Scenario.mem)
            [Scenario.buf_a; Scenario.buf_e; Scenario.buf_b; Scenario.buf_c])
    as H2 by slices_ok_tac.
  split; [exact H1|]. split; [exact H2|].
  exact (X3_total_length 2 Scenario.doubling Scenario.mem _ H1 H2).
Defined.

(** X4. No descriptor of the built table has length zero, and the range of
    every descriptor lies inside allocated memory. *)
Theorem X4_no_empty_descriptor MaxIovs spare h0 bufs :
  (1 ≤ MaxIovs)%Z →
  Forall (slice_ok h0) bufs →
  ∃ t h w,
    (adds MaxIovs spare bufs ;; Build) (h0, zero_Builder) = Ok (t, (h, w))
    ∧ Forall (λ v, 0 < Len v ∧ in_bounds h (Base v) (Len v)) t.
Proof.
  intros HM Hall.
  destruct (run_reach MaxIovs spare h0 bufs HM Hall) as (h & w & Hrun & Hr).
  pose proof (Forall_nonempties _ _ Hall) as Hne.
  exists (iovec w), h, w. split; [unfold bind; by rewrite Hrun|].
  assert (∀ l, Forall (slice_ok h0) l → Forall (λ buf, len buf ≠ 0) l → extends h0 h →
               Forall (λ v, 0 < Len v ∧ in_bounds h (Base v) (Len v)) (map borrowed l))
    as Hborrowed.
  { intros l Hok Hpos Hext. induction l as [|buf l IH]; simpl; [by constructor|].
    apply Forall_cons in Hok as [[? ?] Hok]. apply Forall_cons in Hpos as [? Hpos].
    constructor; [|by apply IH]. simpl. split; [lia|].
    eapply extends_in_bounds; [done|]. by eapply in_bounds_le. }
  assert (Forall (λ buf, len buf ≠ 0) (nonempties bufs)) as Hpos.
  { apply Forall_forall. by intros buf [? _]%list_elem_of_filter. }
  destruct (reach_table _ _ _ _ _ Hr Hne)
    as [(_ & -> & ->) | (_ & Hext & -> & Hov & Hrange & _)].
  - apply Hborrowed; [done | done | apply extends_refl].
  - apply Forall_app. split.
    + apply Hborrowed; [by apply Forall_take | by apply Forall_take | done].
    + apply Forall_singleton. simpl. split; [done|].
      unfold range, load in Hrange. simpl in Hrange.
      destruct (in_boundsb h (data (overflow w)) (len (overflow w))) eqn:E; [|done].
      by apply in_boundsb_true.
Qed.

Lemma X4_no_empty_descriptor_witness :
  (1 ≤ 2)%Z
  ∧ Forall (slice_ok Scenario.mem)
      [Scenario.buf_e; Scenario.buf_a; nil_slice; Scenario.buf_b; Scenario.buf_c]
  ∧ ∃ t h w,
      (adds 2 Scenario.doubling
         [Scenario.buf_e; Scenario.buf_a; nil_slice; Scenario.buf_b; Scenario.buf_c]
       ;; Build) (Scenario.mem, zero_Builder) = Ok (t, (h, w))
      ∧ Forall (λ v, 0 < Len v ∧ in_bounds h (Base v) (Len v)) t.
Proof.
  assert (1 ≤ 2)%Z as H1 by lia.
  assert (Forall (slice_ok Scenario.mem)
            [Scenario.buf_e; Scenario.buf_a; nil_slice; Scenario.buf_b; Scenario.buf_c])
    as H2 by slices_ok_tac.
  split; [exact H1|]. split; [exact H2|].
  exact (X4_no_empty_descriptor 2 Scenario.doubling Scenario.mem _ H1 H2).
Defined.



(** X6. Adding more buffers never rewrites a descriptor that lies before the
    last slot of the table: at every index [i] with [i + 1 < MaxIovs], the
    descriptor the table holds after a run is still there after any longer
    run. *)
Theorem X6_descriptors_are_stable MaxIovs spare h0 bufs more :
  (1 ≤ MaxIovs)%Z →
  Forall (slice_ok h0) bufs →
  Forall (slice_ok h0) more →
  ∃ t1 σ1 t2 σ2,
    (adds MaxIovs spare bufs ;; Build) (h0, zero_Builder) = Ok (t1, σ1)
    ∧ (adds MaxIovs spare (bufs ++ more) ;; Build) (h0, zero_Builder) = Ok (t2, σ2)
    ∧ ∀ i v, (Z.of_nat i + 1 < MaxIovs)%Z → t1 !! i = Some v → t2 !! i = Some v.
Proof.
  intros HM Hbufs Hmore.
  assert (Forall (slice_ok h0) (bufs ++ more)) as Hall by (by apply Forall_app).
  destruct (run_reach MaxIovs spare h0 bufs HM Hbufs) as (h1 & w1 & Hrun1 & Hr1).
  destruct (run_reach MaxIovs spare h0 _ HM Hall) as (h2 & w2 & Hrun2 & Hr2).
  exists (iovec w1), (h1, w1), (iovec w2), (h2, w2).
  split; [unfold bind; by rewrite Hrun1|].
  split; [unfold bind; by rewrite Hrun2|].
  intros i v Hi Hv.
  rewrite (reach_lookup _ _ _ _ _ _ Hr1 (Forall_nonempties _ _ Hbufs) Hi) in Hv.
  rewrite (reach_lookup _ _ _ _ _ _ Hr2 (Forall_nonempties _ _ Hall) Hi).
  rewrite nonempties_app.
  destruct (nonempties bufs !! i) as [buf|] eqn:E; [|done].
  by rewrite (lookup_app_l_Some _ _ _ _ E).
Qed.

Lemma X6_descriptors_are_stable_witness :
  (1 ≤ 3)%Z
  ∧ Forall (slice_ok Scenario.mem) [Scenario.buf_a; Scenario.buf_b]
  ∧ Forall (slice_ok Scenario.mem) [Scenario.buf_c; Scenario.buf_d]
  ∧ ∃ t1 σ1 t2 σ2,
      (adds 3 Scenario.doubling [Scenario.buf_a; Scenario.buf_b] ;; Build)
        (Scenario.mem, zero_Builder) = Ok (t1, σ1)
      ∧ (adds 3 Scenario.doubling
           ([Scenario.buf_a; Scenario.buf_b] ++ [Scenario.buf_c; Scenario.buf_d])
         ;; Build) (Scenario.mem, zero_Builder) = Ok (t2, σ2)
      ∧ ∀ i v, (Z.of_nat i + 1 < 3)%Z → t1 !! i = Some v → t2 !! i = Some v.
Proof.
  assert (1 ≤ 3)%Z as H1 by lia.
  assert (Forall (slice_ok Scenario.mem) [Scenario.buf_a; Scenario.buf_b]) as H2
    by slices_ok_tac.
  assert (Forall (slice_ok Scenario.mem) [Scenario.buf_c; Scenario.buf_d]) as H3
    by slices_ok_tac.
  split; [exact H1|]. split; [exact H2|]. split; [exact H3|].
  exact (X6_descriptors_are_stable 3 Scenario.doubling Scenario.mem _ _ H1 H2 H3).
Defined.

(** X7. With [MaxIovs] zero or negative the builder cannot take any data:
    every run of [Add] calls that holds a non-empty buffer panics, indexing
    the empty table at [-1]. *)
Theorem X7_no_room_panics MaxIovs spare h0 bufs :
  (MaxIovs ≤ 0)%Z →
  Forall (slice_ok h0) bufs →
  nonempties bufs ≠ [] →
  adds MaxIovs spare bufs (h0, zero_Builder) = Panic (IndexOutOfRange (-1) 0).
Proof.
  intros HM Hall Hne. rewrite adds_nonempties.
  pose proof (Forall_nonempties _ _ Hall) as Hok.
  assert (Forall (λ buf, len buf ≠ 0) (nonempties bufs)) as Hpos.
  { apply Forall_forall. by intros buf [? _]%list_elem_of_filter. }
  destruct (nonempties bufs) as [|buf rest]; [done|].
  apply Forall_cons in Hok as [Hbuf _]. apply Forall_cons in Hpos as [? _].
  simpl. unfold bind.
  by rewrite Add_panics_without_room by (done || lia).
Qed.

Lemma X7_no_room_panics_witness :
  (-3 ≤ 0)%Z
  ∧ Forall (slice_ok Scenario.mem) [Scenario.buf_e; Scenario.buf_a; Scenario.buf_b]
  ∧ nonempties [Scenario.buf_e; Scenario.buf_a; Scenario.buf_b] ≠ []
  ∧ adds (-3) Scenario.doubling [Scenario.buf_e; Scenario.buf_a; Scenario.buf_b]
      (Scenario.mem, zero_Builder) = Panic (IndexOutOfRange (-1) 0).
Proof.
  assert (-3 ≤ 0)%Z as H1 by lia.
  assert (Forall (slice_ok Scenario.mem)
            [Scenario.buf_e; Scenario.buf_a; Scenario.buf_b]) as H2 by slices_ok_tac.
  assert (nonempties [Scenario.buf_e; Scenario.buf_a; Scenario.buf_b] ≠ []) as H3
    by (vm_compute; discriminate).
  split; [exact H1|]. split; [exact H2|]. split; [exact H3|].
  exact (X7_no_room_panics (-3) Scenario.doubling Scenario.mem _ H1 H2 H3).
Defined.

(** * The standard clock *)

Module ClockFacts.
Import Clock.

Lemma wrap64_id z : is_int64 z → wrap64 z = z.
Proof. unfold is_int64, wrap64. intros ?. rewrite Z.mod_small; lia. Qed.

Lemma wrap64_plus a b : wrap64 (wrap64 a + b) = wrap64 (a + b).
Proof.
  unfold wrap64. f_equal.
  replace (((a + 2 ^ 63) mod 2 ^ 64 - 2 ^ 63 + b + 2 ^ 63))%Z
    with ((a + 2 ^ 63) mod 2 ^ 64 + b)%Z by lia.
  rewrite Zplus_mod_idemp_l. f_equal. lia.
Qed.

Lemma NowNanoseconds_wrap r :
  NowNanoseconds r = wrap64 (sec r * 1000000000 + nsec r).
Proof. apply wrap64_plus. Qed.

End ClockFacts.

Import Clock ClockFacts.

(** X8. As long as the wall time in nanoseconds fits an [int64] (from the
    year 1678 to the year 2262), [NowNanoseconds] is exactly
    [sec * 10^9 + nsec], and the seconds and the nanoseconds of the reading
    are recovered from it by division. *)
Theorem X8_nanoseconds_exact (r : reading) :
  (0 ≤ nsec r < 1000000000)%Z →
  is_int64 (sec r * 1000000000 + nsec r) →
  NowNanoseconds r = (sec r * 1000000000 + nsec r)%Z
  ∧ (NowNanoseconds r / 1000000000 = sec r)%Z
  ∧ (NowNanoseconds r mod 1000000000 = nsec r)%Z.
Proof.
  intros Hn Hfit. rewrite NowNanoseconds_wrap, wrap64_id by done.
  split; [done|]. split.
  - symmetry. apply (Z.div_unique_pos _ _ _ (nsec r)); lia.
  - symmetry. apply (Z.mod_unique_pos _ _ (sec r)); lia.
Qed.

Lemma X8_nanoseconds_exact_witness :
  (0 ≤ 999999999 < 1000000000)%Z
  ∧ is_int64 (1600000000 * 1000000000 + 999999999)
  ∧ NowNanoseconds {| sec := 1600000000; nsec := 999999999; mono := 5 |}
    = (1600000000 * 1000000000 + 999999999)%Z
  ∧ (NowNanoseconds {| sec := 1600000000; nsec := 999999999; mono := 5 |}
       / 1000000000 = 1600000000)%Z
  ∧ (NowNanoseconds {| sec := 1600000000; nsec := 999999999; mono := 5 |}
       mod 1000000000 = 999999999)%Z.
Proof.
  assert (0 ≤ 999999999 < 1000000000)%Z as H1 by lia.
  assert (is_int64 (1600000000 * 1000000000 + 999999999)) as H2
    by (unfold is_int64; lia).
  split; [exact H1|]. split; [exact H2|].
  exact (X8_nanoseconds_exact
           {| sec := 1600000000; nsec := 999999999; mono := 5 |} H1 H2).
Defined.

(** X9. In that range [NowNanoseconds] keeps the order of the wall time: a
    later reading (more seconds, or the same second and more nanoseconds)
    gives a strictly larger value, so different readings give different
    values. *)
Theorem X9_nanoseconds_monotone (r1 r2 : reading) :
  (0 ≤ nsec r1 < 1000000000)%Z →
  (0 ≤ nsec r2 < 1000000000)%Z →
  is_int64 (sec r1 * 1000000000 + nsec r1) →
  is_int64 (sec r2 * 1000000000 + nsec r2) →
  (sec r1 < sec r2 ∨ (sec r1 = sec r2 ∧ nsec r1 < nsec r2))%Z →
  (NowNanoseconds r1 < NowNanoseconds r2)%Z.
Proof.
  intros Hn1 Hn2 Hf1 Hf2 Hlt.
  rewrite !NowNanoseconds_wrap, !wrap64_id by done. lia.
Qed.

Lemma X9_nanoseconds_monotone_witness :
  (0 ≤ 999999999 < 1000000000)%Z
  ∧ (0 ≤ 0 < 1000000000)%Z
  ∧ is_int64 (7 * 1000000000 + 999999999)
  ∧ is_int64 (8 * 1000000000 + 0)
  ∧ (7 < 8 ∨ (7 = 8 ∧ 999999999 < 0))%Z
  ∧ (NowNanoseconds {| sec := 7; nsec := 999999999; mono := 0 |}
     < NowNanoseconds {| sec := 8; nsec := 0; mono := 0 |})%Z.
Proof.
  assert (0 ≤ 999999999 < 1000000000)%Z as H1 by lia.
  assert (0 ≤ 0 < 1000000000)%Z as H2 by lia.
  assert (is_int64 (7 * 1000000000 + 999999999)) as H3 by (unfold is_int64; lia).
  assert (is_int64 (8 * 1000000000 + 0)) as H4 by (unfold is_int64; lia).
  assert (7 < 8 ∨ (7 = 8 ∧ 999999999 < 0))%Z as H5 by lia.
  split; [exact H1|]. split; [exact H2|]. split; [exact H3|]. split; [exact H4|].
  split; [exact H5|].
  exact (X9_nanoseconds_monotone
           {| sec := 7; nsec := 999999999; mono := 0 |}
           {| sec := 8; nsec := 0; mono := 0 |} H1 H2 H3 H4 H5).
Defined.

(** X10. Past that range the sum wraps around: for a wall time of [2^63]
    nanoseconds or more (and less than [2^64]), [NowNanoseconds] is the
    wall time less [2^64], a negative number. *)
Theorem X10_nanoseconds_wrap (r : reading) :
  (2 ^ 63 ≤ sec r * 1000000000 + nsec r < 2 ^ 64)%Z →
  NowNanoseconds r = (sec r * 1000000000 + nsec r - 2 ^ 64)%Z
  ∧ (NowNanoseconds r < 0)%Z.
Proof.
  intros Hover. rewrite NowNanoseconds_wrap. unfold wrap64.
  replace ((sec r * 1000000000 + nsec r + 2 ^ 63))%Z
    with ((sec r * 1000000000 + nsec r - 2 ^ 63) + 1 * 2 ^ 64)%Z by lia.
  rewrite Z_mod_plus_full, Z.mod_small by lia. lia.
Qed.

Lemma X10_nanoseconds_wrap_witness :
  (2 ^ 63 ≤ 9223372036 * 1000000000 + 854775808 < 2 ^ 64)%Z
  ∧ NowNanoseconds {| sec := 9223372036; nsec := 854775808; mono := 0 |}
    = (9223372036 * 1000000000 + 854775808 - 2 ^ 64)%Z
  ∧ (NowNanoseconds {| sec := 9223372036; nsec := 854775808; mono := 0 |} < 0)%Z.
Proof.
  assert (2 ^ 63 ≤ 9223372036 * 1000000000 + 854775808 < 2 ^ 64)%Z as H1 by lia.
  split; [exact H1|].
  exact (X10_nanoseconds_wrap
           {| sec := 9223372036; nsec := 854775808; mono := 0 |} H1).
Defined.

(** * Docker containers *)

Module DockerFacts.
Import Docker.
Local Open Scope docker_scope.

Lemma run_cleanups_events fs c tr :
  run_cleanups fs (c, tr) = (tt, (c, tr ++ map (cleanup_event c) fs)).
Proof.
  revert tr. induction fs as [|f fs IH]; intros tr; simpl.
  - by rewrite app_nil_r.
  - unfold dbind. destruct f; simpl; rewrite IH; by rewrite <- app_assoc.
Qed.

Lemma elems_gappend {A} (s : option (list A)) xs :
  elems (gappend s xs) = elems s ++ xs.
Proof. destruct s as [l|], xs as [|x xs]; simpl; try done. Qed.

(** [CleanUp], as the events it adds. *)
Lemma CleanUp_events out sprintf (c : Container) (tr : list event) :
  ∃ log1 log2,
    CleanUp out sprintf (c, tr)
    = (tt, (set_cleanups [] (set_mounts None c),
            tr ++ [ContainerKill (id c)] ++ log1
               ++ [ContainerRemove (Name c)
                     {| RemoveVolumes := bool_decide (mounts c ≠ None);
                        RemoveLinks := bool_decide (links c ≠ None);
                        Force := true |}] ++ log2
               ++ map (cleanup_event c) (cleanups c)))
    ∧ log1 = match kill_reply out (tr ++ [ContainerKill (id c)]) with
             | Some e =>
                 if Contains e "is not running" then []
                 else [Logf "error killing container %q: %v" [Name c; e]]
             | None => []
             end
    ∧ (log2 = [] ∨ ∃ args, log2 = [Logf "error removing container %q: %v" args]).
Proof.
  unfold CleanUp, Kill, Remove, dbind, self, emit, ask, update, dret, from_outside.
  simpl.
  destruct (kill_reply out _) as [kerr|] eqn:Ek; simpl;
    [destruct (Contains kerr "is not running") eqn:En; simpl|];
    (destruct (remove_reply out _) as [rerr|] eqn:Er; simpl);
    rewrite run_cleanups_events, <- !app_assoc; simpl.
  - exists [], [Logf "error removing container %q: %v" [Name c; rerr]].
    split; [done|]. split; [done | right; by eexists].
  - exists [], []. split; [done|]. split; [done | by left].
  - exists [Logf "error killing container %q: %v" [Name c; kerr]],
      [Logf "error removing container %q: %v" [Name c; rerr]].
    split; [done|]. split; [done | right; by eexists].
  - exists [Logf "error killing container %q: %v" [Name c; kerr]], [].
    split; [done|]. split; [done | by left].
  - exists [], [Logf "error removing container %q: %v" [Name c; rerr]].
    split; [done|]. split; [done | right; by eexists].
  - exists [], []. split; [done|]. split; [done | by left].
Qed.

(** [Start], by the answer to the attach. *)
Lemma Start_eq out (c : Container) (tr : list event) :
  Start out (c, tr) =
    match attach_reply out (tr ++ [ContainerAttach (id c)]) with
    | inr err =>
        (Some (Errorf "failed to connect to container: %v" [err]),
         (c, tr ++ [ContainerAttach (id c)]))
    | inl conn =>
        (from_outside
           (start_reply out
              (tr ++ [ContainerAttach (id c); ContainerStart (id c) EmptyString])),
         (set_cleanups (cleanups c ++ [close_streams]) (set_streams (Some conn) c),
          tr ++ [ContainerAttach (id c); ContainerStart (id c) EmptyString]))
    end.
Proof.
  unfold Start, dbind, self, emit, ask, update, dret. simpl.
  destruct (attach_reply out _) as [conn|err]; simpl; [|done].
  by rewrite <- !app_assoc.
Qed.

(** [create], by the answer of the daemon. *)
Lemma create_eq out itoa ImageByName r args (c : Container) (tr : list event) :
  let c1 := set_mounts (gappend (mounts c) (Mounts r)) c in
  let ev := ContainerCreate (config itoa ImageByName c r args)
              {| hRuntime := Runtime c; hMounts := gappend (mounts c) (Mounts r);
                 hPublishAllPorts := true; hLinks := Links r; hCapAdd := CapAdd r;
                 hCapDrop := CapDrop r; hPrivileged := Privileged r;
                 hReadonlyRootfs := ReadOnly_ r; hMemory := Memory r;
                 hCpusetCpus := CpusetCpus r |} false (Name c) in
  create out itoa ImageByName r args (c, tr) =
    match create_reply out (tr ++ [ev]) with
    | inr err => (Some (External err), (c1, tr ++ [ev]))
    | inl cid => (None, (set_id cid c1, tr ++ [ev]))
    end.
Proof.
  unfold create, hostConfig, dbind, self, emit, ask, update, dret. simpl.
  by destruct (create_reply out _).
Qed.


Lemma closed_conns_app evs1 evs2 :
  closed_conns (evs1 ++ evs2) = closed_conns evs1 ++ closed_conns evs2.
Proof. apply omap_app. Qed.



End DockerFacts.

Import Docker DockerFacts.

(** X11. [CleanUp] is best effort all the way: it calls [ContainerKill] and
    then [ContainerRemove] whatever the first answers, and then calls every
    registered function once, in the order of registration; the container is
    left without mounts and without registered functions.  A failed kill is
    logged unless its message holds [is not running]; a failed removal is
    logged. *)
Theorem X11_cleanup_runs_everything out sprintf (c : Container) (tr : list event) :
  ∃ log1 log2,
    CleanUp out sprintf (c, tr)
    = (tt, (set_cleanups [] (set_mounts None c),
            tr ++ [ContainerKill (id c)] ++ log1
               ++ [ContainerRemove (Name c)
                     {| RemoveVolumes := bool_decide (mounts c ≠ None);
                        RemoveLinks := bool_decide (links c ≠ None);
                        Force := true |}] ++ log2
               ++ map (cleanup_event c) (cleanups c)))
    ∧ log1 = match kill_reply out (tr ++ [ContainerKill (id c)]) with
             | Some e =>
                 if Contains e "is not running" then []
                 else [Logf "error killing container %q: %v" [Name c; e]]
             | None => []
             end
    ∧ (log2 = [] ∨ ∃ args, log2 = [Logf "error removing container %q: %v" args]).
Proof. apply CleanUp_events. Qed.


(** X13. The mounts of a container pile up: a second [create] passes the
    mounts of the first again, with its own behind them, whether or not the
    first create went well.  After [CleanUp] a [create] passes its own
    mounts only. *)
Theorem X13_mounts_accumulate out itoa ImageByName sprintf r1 a1 r2 a2
    (c : Container) (tr : list event) :
  (∃ e c' conf1 h1 conf2 h2,
     (create out itoa ImageByName r1 a1 ;; create out itoa ImageByName r2 a2)%docker
       (c, tr)
     = (e, (c', tr ++ [ContainerCreate conf1 h1 false (Name c);
                       ContainerCreate conf2 h2 false (Name c)]))
     ∧ elems (hMounts h1) = elems (mounts c) ++ Mounts r1
     ∧ elems (hMounts h2) = elems (mounts c) ++ Mounts r1 ++ Mounts r2)
  ∧ (∃ e c' tr' conf h,
       (create out itoa ImageByName r1 a1 ;; CleanUp out sprintf ;;
        create out itoa ImageByName r2 a2)%docker (c, tr)
       = (e, (c', tr' ++ [ContainerCreate conf h false (Name c)]))
       ∧ elems (hMounts h) = Mounts r2).
Proof.
  split.
  - unfold dbind. rewrite create_eq. simpl.
    destruct (create_reply out _) as [cid|err]; rewrite create_eq; simpl;
      (destruct (create_reply out _) as [cid2|err2]; simpl;
       eexists _, _, _, _, _, _;
       (split; [by rewrite <- app_assoc|]);
       (split; [apply elems_gappend|]);
       simpl; by rewrite elems_gappend, elems_gappend, <- app_assoc).
  - unfold dbind. rewrite create_eq. simpl.
    destruct (create_reply out _) as [cid|err];
      match goal with
      | |- context [CleanUp out sprintf (?c1, ?t1)] =>
          destruct (CleanUp_events out sprintf c1 t1) as (log1 & log2 & -> & _ & _)
      end;
      rewrite create_eq; simpl;
      (destruct (create_reply out _) as [cid2|err2]; simpl;
       eexists _, _, _, _, _;
       (split; [reflexivity|]);
       exact (elems_gappend None (Mounts r2))).
Qed.

(** X14. The function [Start] registers closes the streams the container
    holds when the function is called, not those of the [Start] that
    registered it: after two [Start]s that both attached, [CleanUp] closes
    the second connection twice and the first one never. *)
Theorem X14_second_start_leaks_first_stream out sprintf (c : Container)
    (tr : list event) (conn1 conn2 : nat) :
  cleanups c = [] →
  attach_reply out (tr ++ [ContainerAttach (id c)]) = inl conn1 →
  attach_reply out
    (tr ++ [ContainerAttach (id c); ContainerStart (id c) EmptyString;
            ContainerAttach (id c)]) = inl conn2 →
  ∃ c' evs,
    (Start out ;; Start out ;; CleanUp out sprintf)%docker (c, tr)
    = (tt, (c', tr ++ evs))
    ∧ closed_conns evs = [Some conn2; Some conn2].
Proof.
  intros Hcs Ha1 Ha2. unfold dbind.
  rewrite Start_eq, Ha1. simpl. rewrite Start_eq. simpl.
  rewrite <- app_assoc. simpl. rewrite Ha2.
  match goal with
  | |- context [CleanUp out sprintf (?c1, ?t1)] =>
      destruct (CleanUp_events out sprintf c1 t1) as (log1 & log2 & -> & Hl1 & Hl2)
  end.
  assert (closed_conns log1 = []) as Hc1.
  { rewrite Hl1. destruct (kill_reply out _) as [e|]; [|done].
    by destruct (Contains e "is not running"). }
  assert (closed_conns log2 = []) as Hc2.
  { by destruct Hl2 as [-> | [args ->]]. }
  simpl. rewrite Hcs. simpl. rewrite <- !app_assoc. simpl.
  eexists _,
    ([ContainerAttach (id c); ContainerStart (id c) EmptyString;
      ContainerAttach (id c); ContainerStart (id c) EmptyString;
      ContainerKill (id c)] ++ log1 ++ [ContainerRemove (Name c) _] ++ log2
       ++ [StreamsClose (Some conn2); StreamsClose (Some conn2)]).
  split; [reflexivity|].
  rewrite !closed_conns_app, Hc1, Hc2. reflexivity.
Qed.

Lemma X14_second_start_leaks_first_stream_witness :
  cleanups (new_Container "netcat" "runsc") = []
  ∧ attach_reply all_well
      ([] ++ [ContainerAttach (id (new_Container "netcat" "runsc"))]) = inl 1
  ∧ attach_reply all_well
      ([] ++ [ContainerAttach (id (new_Container "netcat" "runsc"));
              ContainerStart (id (new_Container "netcat" "runsc")) EmptyString;
              ContainerAttach (id (new_Container "netcat" "runsc"))]) = inl 3
  ∧ ∃ c' evs,
      (Start all_well ;; Start all_well ;; CleanUp all_well (λ f _, f))%docker
        (new_Container "netcat" "runsc", [])
      = (tt, (c', [] ++ evs))
      ∧ closed_conns evs = [Some 3; Some 3].
Proof.
  assert (cleanups (new_Container "netcat" "runsc") = []) as H1 by reflexivity.
  assert (attach_reply all_well
            ([] ++ [ContainerAttach (id (new_Container "netcat" "runsc"))]) = inl 1)
    as H2 by reflexivity.
  assert (attach_reply all_well
            ([] ++ [ContainerAttach (id (new_Container "netcat" "runsc"));
                    ContainerStart (id (new_Container "netcat" "runsc")) EmptyString;
                    ContainerAttach (id (new_Container "netcat" "runsc"))]) = inl 3)
    as H3 by reflexivity.
  split; [exact H1|]. split; [exact H2|]. split; [exact H3|].
  exact (X14_second_start_leaks_first_stream all_well (λ f _, f)
           (new_Container "netcat" "runsc") [] 1 3 H1 H2 H3).
Defined.




